(** * Quantum Wave-Particle sketch (final.js): a shallow embedding

    The sketch is a p5.js program.  Its numbers are JavaScript doubles; they
    are modelled here by the real numbers [R], so every statement below is
    about the exact-arithmetic reading of the code (no rounding, no NaN, no
    infinities).  Where the code can produce NaN by reading a field of an
    empty object, the affected value is an [option] and [None] stands for
    NaN / a missing object.

    The p5.js library functions the sketch calls ([map], [constrain],
    [dist], [random], the [p5.Vector] methods, [int]) are not part of the
    sketch; module [P5] restates them from the p5.js 1.x reference
    implementation.  Drawing and Tone.js calls have no effect on the state
    that is modelled and are left out; of the drawing code only the
    numbers it computes (alpha, hues, grid geometry) are modelled. *)

From Stdlib Require Import Reals Lra Lia List String Ascii ZArith Bool.
Import ListNotations.

Local Open Scope R_scope.

(** ** p5.js library functions used by the sketch *)

Module P5.

(** [map(n, start1, stop1, start2, stop2)]: called without the sixth
    argument [withinBounds], so the result is NOT constrained. *)
Definition map (n start1 stop1 start2 stop2 : R) : R :=
  (n - start1) / (stop1 - start1) * (stop2 - start2) + start2.

(** [constrain(n, low, high) = Math.max(Math.min(n, high), low)]. *)
Definition constrain (n low high : R) : R := Rmax (Rmin n high) low.

(** [dist(x1, y1, x2, y2) = Math.hypot(x2 - x1, y2 - y1)]. *)
Definition dist (x1 y1 x2 y2 : R) : R :=
  sqrt ((x2 - x1) * (x2 - x1) + (y2 - y1) * (y2 - y1)).

Definition TWO_PI : R := 2 * PI.

(** [floor(x) = Math.floor(x)]. *)
Definition floor (x : R) : R := IZR (Zfloor x).

(** A 2D [p5.Vector]; the methods mutate the receiver in place, which is
    modelled by returning the new value. *)
Record Vector : Type := createVector { x : R; y : R }.

Module Vector.
Definition copy (v : Vector) : Vector := createVector (x v) (y v).
Definition add (v w : Vector) : Vector :=
  createVector (x v + x w) (y v + y w).
(** static [p5.Vector.sub(v1, v2)] *)
Definition sub (v1 v2 : Vector) : Vector :=
  createVector (x v1 - x v2) (y v1 - y v2).
Definition mult (v : Vector) (n : R) : Vector :=
  createVector (x v * n) (y v * n).
Definition magSq (v : Vector) : R := x v * x v + y v * y v.
Definition mag (v : Vector) : R := sqrt (magSq v).
(** [normalize]: [len = mag(); if (len !== 0) mult(1 / len)]. *)
Definition normalize (v : Vector) : Vector :=
  if Req_dec_T (mag v) 0 then v else mult v (1 / mag v).
(** [setMag(n) = normalize().mult(n)]. *)
Definition setMag (v : Vector) (n : R) : Vector := mult (normalize v) n.
(** static [p5.Vector.dist(v1, v2) = v2.copy().sub(v1).mag()] *)
Definition dist (v1 v2 : Vector) : R := mag (sub v2 v1).
(** [lerp(target, amt)]: [x += (target.x - x) * amt], same for [y]. *)
Definition lerp (v target : Vector) (amt : R) : Vector :=
  createVector (x v + (x target - x v) * amt)
               (y v + (y target - y v) * amt).
(** static [p5.Vector.fromAngle(angle)], length 1 *)
Definition fromAngle (angle : R) : Vector :=
  createVector (cos angle) (sin angle).
End Vector.

End P5.

Import P5.

(** ** Global state of the sketch *)

Inductive Mode : Type := wave | particle.

Record Preset : Type := mkPreset {
  hue : R; sat : R; bright : R; speed : R; noiseScale : R; particleSize : R
}.

Definition shapes : list string :=
  ["circle"; "square"; "triangle"; "star"]%string.

Definition gridCols : R := 60.
Definition gridRows : R := 40.

(** [size] is [None] when the code computed it from a missing
    [preset.particleSize] (NaN in JavaScript). *)
Record Particle : Type := mkParticle {
  pos : Vector; prev : Vector; vel : Vector;
  size : option R; phase : R; life : R; seed : R
}.

(** What a method of [Particle] reads from the p5 environment and from the
    sketch's globals during one call. *)
Record Env : Type := mkEnv {
  width : R; height : R;
  mouseX : R; mouseY : R; mouseIsPressed : bool;
  mode : Mode; t : R; preset : Preset;
  noise : R -> R -> R -> R
}.

(** ** Pseudo-random draws

    [random()] and [Math.random()] (used by [p5.Vector.random2D]) each
    return a number in [0, 1).  The draws of one run, in call order, form a
    stream; code that draws is written in a state monad over the rest of
    the stream. *)

Definition RNG : Type := nat -> R.

Definition uniform (g : RNG) : Prop := forall n, 0 <= g n < 1.

Definition Rand (A : Type) : Type := RNG -> A * RNG.

Definition ret {A : Type} (a : A) : Rand A := fun g => (a, g).

Definition bind {A B : Type} (m : Rand A) (k : A -> Rand B) : Rand B :=
  fun g => let (a, g') := m g in k a g'.

Notation "x <- m ;; k" := (bind m (fun x => k))
  (at level 61, m at next level, right associativity).

Definition rand : Rand R := fun g => (g 0%nat, fun n => g (S n)).

(** [random(max)] *)
Definition random1 (max : R) : Rand R :=
  u <- rand ;; ret (u * max).

(** [random(min, max)]; p5 swaps the bounds when [min > max]. *)
Definition random2 (min max : R) : Rand R :=
  u <- rand ;;
  if Rlt_dec max min then ret (u * (min - max) + max)
  else ret (u * (max - min) + min).

(** [p5.Vector.random2D() = fromAngle(Math.random() * TWO_PI)] *)
Definition random2D : Rand Vector :=
  u <- rand ;; ret (Vector.fromAngle (u * TWO_PI)).

Fixpoint mapM {A B : Type} (f : A -> Rand B) (l : list A) : Rand (list B) :=
  match l with
  | [] => ret []
  | a :: l' => b <- f a ;; bs <- mapM f l' ;; ret (b :: bs)
  end.

(** ** class Particle *)

(** The local [d] of [update]: distance from the particle to the pointer. *)
Definition mouse (e : Env) : Vector := createVector (mouseX e) (mouseY e).

Definition update_d (e : Env) (p : Particle) : R :=
  Vector.dist (pos p) (mouse e).

(** The local [influence] of [update] (same expression in both branches). *)
Definition influence (e : Env) (p : Particle) : R :=
  P5.map (update_d e p) 0 (width e * 0.7) 1.0 0.

(** The local [nvec] of [update]: the flow direction from the noise field. *)
Definition nvec (e : Env) (p : Particle) : Vector :=
  let ns := noiseScale (preset e) in
  let angle :=
    noise e (x (pos p) * ns) (y (pos p) * ns) (t e + seed p) * TWO_PI * 2 in
  Vector.fromAngle angle.

(** Targets of the velocity blend in the two modes. *)
Definition wave_target (e : Env) (p : Particle) : Vector :=
  let osc := Vector.mult (Vector.fromAngle (phase p + t e * 2)) 0.4 in
  Vector.add (Vector.mult (nvec e p) (speed (preset e) * 0.6)) osc.

Definition particle_target (e : Env) (p : Particle) (jitterdir : Vector)
  : Vector :=
  let jitter := Vector.mult jitterdir 0.5 in
  Vector.add (Vector.mult (nvec e p) (speed (preset e) * 1.4)) jitter.

(** The velocity after the pointer/mode branch of [update]. *)
Definition update_vel (e : Env) (p : Particle) : Rand Vector :=
  if mouseIsPressed e then
    ret (Vector.add (vel p)
           (Vector.setMag (Vector.sub (mouse e) (pos p))
                          (influence e p * 0.8)))
  else
    match mode e with
    | wave => ret (Vector.lerp (vel p) (wave_target e p) 0.05)
    | particle =>
        jd <- random2D ;;
        ret (Vector.lerp (vel p) (particle_target e p jd) 0.06)
    end.

(** The boundary wrap at the end of [update]: four [if]s in sequence. *)
Definition wrap (e : Env) (q : Vector) : Vector :=
  let x1 := if Rlt_dec (x q) (-50) then width e + 50 else x q in
  let x2 := if Rlt_dec (width e + 50) x1 then -50 else x1 in
  let y1 := if Rlt_dec (y q) (-50) then height e + 50 else y q in
  let y2 := if Rlt_dec (height e + 50) y1 then -50 else y1 in
  createVector x2 y2.

Definition update (e : Env) (p : Particle) : Rand Particle :=
  v <- update_vel e p ;;
  ret (mkParticle
         (wrap e (Vector.add (pos p) v))
         (Vector.copy (pos p))
         v
         (size p)
         (phase p + 0.01 * speed (preset e))
         (life p - 0.01)
         (seed p)).

(** [display]: the fill alpha (the drawing itself is not modelled). *)
Definition display_d (e : Env) (p : Particle) : R :=
  P5.dist (x (pos p)) (y (pos p)) (mouseX e) (mouseY e).

Definition alpha_of (w d : R) : R :=
  constrain (P5.map d 0 (w * 0.7) 1.0 0.12) 0.06 1.

Definition display_alpha (e : Env) (p : Particle) : R :=
  alpha_of (width e) (display_d e p).

(** [constructor()]: reads [width], [height] and the global [preset]
    ([None]: the global holds an object without [particleSize]). *)
Definition newParticle (w h : R) (pr : option Preset) : Rand Particle :=
  u1 <- random1 gridCols ;;
  let gx := floor u1 in
  u2 <- random1 gridRows ;;
  let gy := floor u2 in
  r1 <- rand ;;
  r2 <- rand ;;
  let p0 := createVector (P5.map (gx + r1) 0 gridCols 0 w)
                         (P5.map (gy + r2) 0 gridRows 0 h) in
  v <- random2D ;;
  j <- random2 0.7 1.6 ;;
  ph <- random1 TWO_PI ;;
  lf <- random2 100 10000 ;;
  sd <- random1 1000 ;;
  ret (mkParticle p0 (Vector.copy p0) (Vector.mult v 0.2)
         (option_map (fun pr' => particleSize pr' * j) pr) ph lf sd).

(** Repeated calls of [update] on one particle, one environment per call
    (what [draw] does to it frame after frame). *)
Fixpoint updates (es : list Env) (p : Particle) : Rand Particle :=
  match es with
  | [] => ret p
  | e :: es' => p' <- update e p ;; updates es' p'
  end.

(** ** The sketch's globals and its event handlers *)

(** The globals [mode], [t] and [preset] are the fields [cur_mode], [cur_t]
    and [cur_preset] (the plain names are fields of [Env]).  [cur_preset]
    is [None] when [preset] is the empty object, [curPreset] is [None] when
    it is not an integer. *)
Record State : Type := mkState {
  particles : list Particle;
  cur_mode : Mode;
  shapeIndex : nat;
  cur_t : R;
  presets : list Preset;
  curPreset : option Z;
  cur_preset : option Preset
}.

(** [presets[i]]; [undefined] is [None]. *)
Definition presets_at (ps : list Preset) (i : option Z) : option Preset :=
  match i with
  | Some z => if (z <? 0)%Z then None else nth_error ps (Z.to_nat z)
  | None => None
  end.

Definition resize (pr : option Preset) (p : Particle) : Rand Particle :=
  j <- random2 0.7 1.5 ;;
  ret (mkParticle (pos p) (prev p) (vel p)
         (option_map (fun pr' => particleSize pr' * j) pr)
         (phase p) (life p) (seed p)).

(** [applyPreset(i)]: [Object.assign({}, presets[i])] is a fresh object with
    the fields of [presets[i]], or the empty object when [presets[i]] is
    [undefined]. *)
Definition applyPreset (i : option Z) (s : State) : Rand State :=
  let pr := presets_at (presets s) i in
  ps <- mapM (resize pr) (particles s) ;;
  ret (mkState ps (cur_mode s) (shapeIndex s) (cur_t s) (presets s) i pr).

Definition N : nat := 900.

Fixpoint pushN (n : nat) (w h : R) (pr : option Preset) : Rand (list Particle) :=
  match n with
  | O => ret []
  | S n' => p <- newParticle w h pr ;; ps <- pushN n' w h pr ;; ret (p :: ps)
  end.

(** The globals as declared at the top of the file, before [setup]. *)
Definition initial : State := mkState [] wave 0 0 [] (Some 0%Z) None.

Definition setup_presets : list Preset :=
  [ mkPreset 42 85 70 0.8 0.0014 3.0;
    mkPreset 200 70 85 1.2 0.002 2.2;
    mkPreset 280 65 90 0.6 0.001 3.8;
    mkPreset 30 90 95 1.5 0.0026 1.8 ].

Definition setup (w h : R) : Rand State :=
  let s0 := mkState (particles initial) (cur_mode initial)
              (shapeIndex initial) (cur_t initial) setup_presets
              (curPreset initial) (cur_preset initial) in
  s1 <- applyPreset (Some 0%Z) s0 ;;
  ps <- pushN N w h (cur_preset s1) ;;
  ret (mkState (particles s1 ++ ps) (cur_mode s1) (shapeIndex s1) (cur_t s1)
         (presets s1) (curPreset s1) (cur_preset s1)).

(** The loop body of [mousePressed] for one particle; [mx], [my] are
    [mouseX], [mouseY]. *)
Definition pushVec (mx my : R) (p : Particle) (m : R) : Vector :=
  Vector.setMag (Vector.sub (pos p) (createVector mx my)) m.

Definition burst (mx my : R) (p : Particle) : Rand Particle :=
  let d := P5.dist mx my (x (pos p)) (y (pos p)) in
  if Rlt_dec d 140 then
    m <- random2 0.6 2.2 ;;
    ret (mkParticle (pos p) (prev p) (Vector.add (vel p) (pushVec mx my p m))
           (size p) (phase p) (life p) (seed p))
  else ret p.

Definition mousePressed (mx my : R) (s : State) : Rand State :=
  let si := ((shapeIndex s + 1) mod List.length shapes)%nat in
  ps <- mapM (burst mx my) (particles s) ;;
  ret (mkState ps (cur_mode s) si (cur_t s) (presets s) (curPreset s)
         (cur_preset s)).

(** [int(key)] on a string is [parseInt(key, 10)]: leading white space, an
    optional sign, then the longest run of decimal digits; [None] is NaN. *)
Definition is_space (c : ascii) : bool :=
  let n := nat_of_ascii c in
  ((9 <=? n) && (n <=? 13) || (n =? 32))%nat.

Fixpoint skip_space (s : string) : string :=
  match s with
  | String c s' => if is_space c then skip_space s' else s
  | EmptyString => s
  end.

Definition digit_of (c : ascii) : option Z :=
  let n := nat_of_ascii c in
  if ((48 <=? n) && (n <=? 57))%nat then Some (Z.of_nat n - 48)%Z else None.

Fixpoint digits (acc : option Z) (s : string) : option Z :=
  match s with
  | String c s' =>
      match digit_of c with
      | Some d =>
          digits (Some (10 * match acc with Some a => a | None => 0 end + d)%Z) s'
      | None => acc
      end
  | EmptyString => acc
  end.

Definition int (s : string) : option Z :=
  match skip_space s with
  | String "-"%char s' => option_map Z.opp (digits None s')
  | String "+"%char s' => digits None s'
  | s' => digits None s'
  end.

Definition toggle (m : Mode) : Mode :=
  match m with wave => particle | particle => wave end.

(** The loop body of the reseed branch: new [pos] and [vel] objects. *)
Definition reseed (w h : R) (p : Particle) : Rand Particle :=
  px <- random1 w ;;
  py <- random1 h ;;
  v <- random2D ;;
  ret (mkParticle (createVector px py) (prev p) (Vector.mult v 0.2)
         (size p) (phase p) (life p) (seed p)).

(** [keyPressed()]: [key] is the global [key]; [w], [h] are [width],
    [height]; [fresh] is the stream of draws that follows
    [randomSeed(millis())]. *)
Definition keyPressed (key : string) (w h : R) (fresh : RNG) (s : State)
  : Rand State :=
  if (key =? " ")%string then
    ret (mkState (particles s) (toggle (cur_mode s)) (shapeIndex s) (cur_t s)
           (presets s) (curPreset s) (cur_preset s))
  else if ((key =? "s") || (key =? "S"))%string then
    ret s
  else if (String.leb "1" key && String.leb key "4")%string then
    applyPreset (option_map (fun n => n - 1)%Z (int key)) s
  else if ((key =? "r") || (key =? "R"))%string then
    fun _ =>
      (ps <- mapM (reseed w h) (particles s) ;;
       ret (mkState ps (cur_mode s) (shapeIndex s) (cur_t s) (presets s)
              (curPreset s) (cur_preset s))) fresh
  else ret s.

(** ** draw, display colours and the system grid *)

(** What one frame reads from p5: canvas size, pointer state and the
    noise function. *)
Record Frame : Type := mkFrame {
  f_width : R; f_height : R;
  f_mouseX : R; f_mouseY : R; f_pressed : bool;
  f_noise : R -> R -> R -> R
}.

Definition env_of (f : Frame) (s : State) (pr : Preset) : Env :=
  mkEnv (f_width f) (f_height f) (f_mouseX f) (f_mouseY f) (f_pressed f)
    (cur_mode s) (cur_t s) pr (f_noise f).

(** The state effects of [draw()]: [update] on every particle (with the
    [t] of the frame's start), then [t += 0.005 * preset.speed].  When the
    global [preset] is the empty object every number computed from it is
    NaN, which the real-number model does not represent: the result is
    [None]. *)
Definition draw (f : Frame) (s : State) : Rand (option State) :=
  match cur_preset s with
  | None => ret None
  | Some pr =>
      ps <- mapM (update (env_of f s pr)) (particles s) ;;
      ret (Some (mkState ps (cur_mode s) (shapeIndex s)
                   (cur_t s + 0.005 * speed pr) (presets s) (curPreset s)
                   (cur_preset s)))
  end.

(** Consecutive frames with no input event in between. *)
Fixpoint frames (fs : list Frame) (s : State) : Rand (option State) :=
  match fs with
  | [] => ret (Some s)
  | f :: fs' =>
      r <- draw f s ;;
      match r with
      | Some s' => frames fs' s'
      | None => ret None
      end
  end.

(** Consecutive clicks at the given pointer positions. *)
Fixpoint clicks (cs : list (R * R)) (s : State) : Rand State :=
  match cs with
  | [] => ret s
  | (mx, my) :: cs' => s' <- mousePressed mx my s ;; clicks cs' s'
  end.

(** JavaScript [a % b] on numbers: the remainder of the division whose
    quotient is truncated toward zero. *)
Definition trunc (r : R) : Z := if Rlt_dec r 0 then Zceil r else Zfloor r.

Definition js_rem (a b : R) : R := a - b * IZR (trunc (a / b)).

(** [display]: the local [localHue]. *)
Definition localHue (e : Env) (p : Particle) : R :=
  js_rem (hue (preset e)
          + noise e (x (pos p) * 0.002) (y (pos p) * 0.002) (t e) * 40) 360.

(** [draw]: hue and brightness of the [i]-th backdrop rectangle. *)
Definition backdrop_hue (pr : Preset) (i : nat) : R :=
  js_rem (hue pr + INR i * 6) 360.

Definition backdrop_bright (pr : Preset) (i : nat) : R :=
  bright pr * (0.95 - INR i * 0.08).

(** [drawSystemGrid] and [drawHUD]: [(preset.hue + 10) % 360]; the colour
    [c] of [drawSystemGrid]: [(preset.hue + 60) % 360]. *)
Definition accent_hue (pr : Preset) : R := js_rem (hue pr + 10) 360.

Definition grid_c_hue (pr : Preset) : R := js_rem (hue pr + 60) 360.

(** [drawSystemGrid]: the node of lattice point ([gx], [gy]), with
    [0 <= gx <= gridCols] and [0 <= gy <= gridRows]. *)
Definition grid_x (w : R) (gx : nat) : R :=
  P5.map (INR gx) 0 gridCols 50 (w - 50).

Definition grid_y (h : R) (gy : nat) : R :=
  P5.map (INR gy) 0 gridRows 50 (h - 50).

Definition grid_offset (nz : R -> R -> R -> R) (tm : R) (gx gy : nat) : R :=
  nz (INR gx * 0.06) (INR gy * 0.06) (tm * 0.2) * 18 - 9.

(** The point [translate] moves the origin to. *)
Definition grid_origin (w h tm : R) (gx gy : nat) : Vector :=
  createVector (grid_x w gx + sin (tm * 0.2 + INR gx) * 6)
               (grid_y h gy + cos (tm * 0.2 + INR gy) * 6).

(** The vertex of the arc at angle [a], in canvas coordinates. *)
Definition grid_vertex (nz : R -> R -> R -> R) (w h tm : R) (gx gy : nat)
           (a : R) : Vector :=
  let offset := grid_offset nz tm gx gy in
  let r := 8 + sin (a * 3 + INR gx * 0.2 + INR gy * 0.2 + tm) * 4 in
  Vector.add (grid_origin w h tm gx gy)
             (createVector (cos a * r + offset) (sin a * r + offset)).

(** ** Predicates used in the statements *)

(** The range of p5's [noise]. *)
Definition unit_noise (nz : R -> R -> R -> R) : Prop :=
  forall a b c, 0 <= nz a b c <= 1.

(** The particles within reach of a click. *)
Definition near (mx my : R) (p : Particle) : bool :=
  if Rlt_dec (P5.dist mx my (x (pos p)) (y (pos p))) 140 then true
  else false.

(** Fields of a particle that only [update] writes. *)
Definition same_clock (p p' : Particle) : Prop :=
  prev p' = prev p /\ phase p' = phase p /\ life p' = life p /\
  seed p' = seed p.

(** The largest target speed of the velocity blend under preset [pr]. *)
Definition vmax (pr : Preset) : R := speed pr * 1.4 + 0.5.

Definition in_bounds (w h : R) (p : Particle) : Prop :=
  -50 <= x (pos p) <= w + 50 /\ -50 <= y (pos p) <= h + 50.

(** What one round of the [mousePressed] loop does to a particle. *)
Definition burst_rel (mx my : R) (p p' : Particle) : Prop :=
  let d := P5.dist mx my (x (pos p)) (y (pos p)) in
  pos p' = pos p /\
  (d < 140 ->
   exists m, 0.6 <= m < 2.2 /\
             vel p' = Vector.add (vel p) (pushVec mx my p m)) /\
  (140 <= d -> p' = p).

(** A size drawn as [particleSize * j] with [lo <= j < hi]. *)
Definition jittered (tpl : Preset) (lo hi : R) (p : Particle) : Prop :=
  exists j, lo <= j < hi /\ size p = Some (particleSize tpl * j).

(** The ranges the constructor draws from. *)
Definition fresh_particle (w h : R) (pr : Preset) (p : Particle) : Prop :=
  0 <= x (pos p) <= w /\ 0 <= y (pos p) <= h /\
  prev p = pos p /\
  Vector.mag (vel p) = 0.2 /\
  jittered pr 0.7 1.6 p /\
  0 <= phase p < TWO_PI /\
  100 <= life p < 10000 /\
  0 <= seed p < 1000.

(** Where the reseed branch of [keyPressed] leaves a particle. *)
Definition scattered (w h : R) (p : Particle) : Prop :=
  0 <= x (pos p) <= w /\ 0 <= y (pos p) <= h /\ Vector.mag (vel p) = 0.2.

(** The values the global [key] takes when [keyPressed] runs: a single
    character, or the name of a non-printing key ("Enter", "Shift",
    "ArrowUp", "F5", ...).  All that is used of a name is that it does not
    start with a decimal digit. *)
Definition keyboard_key (k : string) : bool :=
  match k with
  | EmptyString => true
  | String _ EmptyString => true
  | String c _ => match digit_of c with Some _ => false | None => true end
  end.

(** The test that guards the preset branch of [keyPressed]. *)
Definition preset_guard (key : string) : bool :=
  (String.leb "1" key && String.leb key "4")%string.

(** The active preset is (a copy of) one of the templates. *)
Definition valid_active (s : State) : Prop :=
  exists j tpl, nth_error (presets s) j = Some tpl /\ cur_preset s = Some tpl.

(** ** Concrete inputs used by the examples below *)

Definition flat_noise : R -> R -> R -> R := fun _ _ _ => 0.5.

Definition preset0 : Preset := mkPreset 42 85 70 0.8 0.0014 3.0.

Definition still (px py : R) : Particle :=
  mkParticle (createVector px py) (createVector px py) (createVector 0 0)
    (Some 3) 0 100 0.

(** A 1000 x 800 canvas, pointer at (1400, 0) and pressed. *)
Definition drag_far : Env :=
  mkEnv 1000 800 1400 0 true wave 0 preset0 flat_noise.

(** The same canvas, pointer pressed at (-2000, 9000), off the canvas. *)
Definition drag_out : Env :=
  mkEnv 1000 800 (-2000) 9000 true wave 0 preset0 flat_noise.

(** The same canvas, pointer at (300, 400) and not pressed. *)
Definition hover : Env :=
  mkEnv 1000 800 300 400 false wave 0 preset0 flat_noise.

(** As [hover], in particle mode. *)
Definition ballistic : Env :=
  mkEnv 1000 800 300 400 false particle 0 preset0 flat_noise.

Definition half : RNG := fun _ => 0.5.

Definition high : RNG := fun _ => 0.95.

(** A frame on the 1000 x 800 canvas, pointer at (300, 400), not pressed. *)
Definition calm : Frame := mkFrame 1000 800 300 400 false flat_noise.

(** A sketch with two particles: one at (300, 400), one at (330, 440). *)
Definition duo : State :=
  mkState [still 300 400; still 330 440] wave 3 0 setup_presets
    (Some 0%Z) (Some preset0).

(** ** Facts about the library functions *)

(** Decimal literals are [Q2R] of a fraction; [decimals] exposes them as
    quotients of integers for [field] and [ring]. *)
Ltac decimals :=
  unfold Q2R in *; cbn [QArith_base.Qnum QArith_base.Qden] in *.

(** Case analysis on every [Rmax] and [Rmin] in sight. *)
Ltac minmax_cases :=
  unfold Rmax, Rmin in *;
  repeat match goal with
         | |- context [Rle_dec ?a ?b] => destruct (Rle_dec a b)
         | H : context [Rle_dec ?a ?b] |- _ => destruct (Rle_dec a b)
         end.

Section VectorFacts.

Lemma sqrt_of_square (a b : R) : 0 <= a -> b = a * a -> sqrt b = a.
Proof. intros Ha ->. now apply sqrt_square. Qed.

Lemma mag_nonneg (v : Vector) : 0 <= Vector.mag v.
Proof. apply sqrt_pos. Qed.

Lemma magSq_nonneg (v : Vector) : 0 <= Vector.magSq v.
Proof. unfold Vector.magSq. nra. Qed.

Lemma mag_sq (v : Vector) : Vector.mag v * Vector.mag v = Vector.magSq v.
Proof. apply sqrt_sqrt, magSq_nonneg. Qed.

Lemma mag_zero_iff (v : Vector) : Vector.mag v = 0 <-> v = createVector 0 0.
Proof.
  split.
  - intros H. pose proof (mag_sq v) as Hs. rewrite H in Hs.
    unfold Vector.magSq in Hs. destruct v as [a b]; simpl in *.
    assert (a = 0) by nra. assert (b = 0) by nra. now subst.
  - intros ->. unfold Vector.mag, Vector.magSq; simpl.
    apply sqrt_of_square; lra.
Qed.

Lemma mag_mult (v : Vector) (n : R) :
  Vector.mag (Vector.mult v n) = Rabs n * Vector.mag v.
Proof.
  unfold Vector.mag. replace (Vector.magSq (Vector.mult v n))
    with ((n * n) * Vector.magSq v)
    by (unfold Vector.magSq, Vector.mult; simpl; ring).
  rewrite sqrt_mult_alt by nra.
  f_equal. fold (Rsqr n). apply sqrt_Rsqr_abs.
Qed.

Lemma mag_fromAngle (a : R) : Vector.mag (Vector.fromAngle a) = 1.
Proof.
  unfold Vector.mag, Vector.magSq, Vector.fromAngle; simpl.
  apply sqrt_of_square; [lra|].
  pose proof (sin2_cos2 a) as H. unfold Rsqr in H. lra.
Qed.

(** The Euclidean norm is sub-additive. *)
Lemma mag_add (v w : Vector) :
  Vector.mag (Vector.add v w) <= Vector.mag v + Vector.mag w.
Proof.
  pose proof (mag_nonneg v) as Hv. pose proof (mag_nonneg w) as Hw.
  pose proof (mag_sq v) as Hv2. pose proof (mag_sq w) as Hw2.
  pose proof (mag_sq (Vector.add v w)) as Ha2.
  pose proof (mag_nonneg (Vector.add v w)) as Ha.
  unfold Vector.magSq, Vector.add in *; simpl in *.
  destruct v as [a b], w as [c d]; simpl in *.
  set (mv := Vector.mag (createVector a b)) in *.
  set (mw := Vector.mag (createVector c d)) in *.
  set (ma := Vector.mag _) in *.
  assert (Hcs : a * c + b * d <= mv * mw).
  { destruct (Rle_dec (a * c + b * d) 0) as [Hn|Hp]; [nra|].
    assert ((a * c + b * d) * (a * c + b * d) <= (mv * mw) * (mv * mw)).
    { replace (mv * mw * (mv * mw)) with ((mv * mv) * (mw * mw)) by ring.
      rewrite Hv2, Hw2.
      pose proof (Rle_0_sqr (a * d - b * c)) as Hsq. unfold Rsqr in Hsq.
      nra. }
    pose proof (Rmult_le_pos _ _ Hv Hw). nra. }
  nra.
Qed.

Lemma mag_sub (v w : Vector) :
  Vector.mag (Vector.sub v w) <= Vector.mag v + Vector.mag w.
Proof.
  replace (Vector.sub v w) with (Vector.add v (Vector.mult w (-1)))
    by (unfold Vector.sub, Vector.add, Vector.mult; simpl;
        apply (f_equal2 createVector); ring).
  eapply Rle_trans; [apply mag_add|].
  rewrite mag_mult. replace (Rabs (-1)) with 1; [lra|].
  rewrite Rabs_left; lra.
Qed.

Lemma setMag_zero (n : R) :
  Vector.setMag (createVector 0 0) n = createVector 0 0.
Proof.
  unfold Vector.setMag, Vector.normalize.
  destruct (Req_dec_T _ 0) as [_|H].
  - unfold Vector.mult; simpl. apply (f_equal2 createVector); ring.
  - exfalso. apply H. now apply mag_zero_iff.
Qed.

(** Away from the zero vector [setMag v n] is [v] scaled by [n / |v|]. *)
Lemma setMag_scale (v : Vector) (n : R) :
  Vector.mag v <> 0 ->
  Vector.setMag v n = Vector.mult v (n / Vector.mag v).
Proof.
  intros H. unfold Vector.setMag, Vector.normalize.
  destruct (Req_dec_T _ 0) as [E|_]; [contradiction|].
  unfold Vector.mult; simpl. apply (f_equal2 createVector); field; assumption.
Qed.

Lemma mag_setMag (v : Vector) (n : R) :
  Vector.mag v <> 0 -> Vector.mag (Vector.setMag v n) = Rabs n.
Proof.
  intros H. rewrite setMag_scale by assumption. rewrite mag_mult.
  pose proof (mag_nonneg v).
  unfold Rdiv. rewrite Rabs_mult, Rabs_inv, (Rabs_right (Vector.mag v)) by lra.
  field. assumption.
Qed.

Lemma map_from_one (d w b : R) :
  0 < w -> P5.map d 0 (w * 0.7) 1.0 b = 1 - (1 - b) * (d / (0.7 * w)).
Proof. intros Hw. unfold P5.map. decimals. field. lra. Qed.

End VectorFacts.

(** ** Facts about the stream of draws *)

Section Draws.

Lemma uniform_tail (g : RNG) : uniform g -> uniform (fun n => g (S n)).
Proof. intros H n. apply H. Qed.

Lemma uniform_half : uniform half.
Proof. intros n. unfold half. lra. Qed.

Lemma random2_range (lo hi : R) (g : RNG) :
  uniform g -> lo < hi ->
  fst (random2 lo hi g) = g 0%nat * (hi - lo) + lo /\
  lo <= fst (random2 lo hi g) < hi /\
  uniform (snd (random2 lo hi g)).
Proof.
  intros Hg Hlt. unfold random2, bind, rand, ret.
  destruct (Rlt_dec hi lo) as [Hc|_]; [lra|]. simpl.
  pose proof (Hg 0%nat).
  split; [reflexivity|]. split; [nra|]. now apply uniform_tail.
Qed.

(** A loop over the particles that keeps the stream uniform relates the
    old and the new collection element by element. *)
Lemma mapM_Forall2 {A B : Type} (I : RNG -> Prop) (f : A -> Rand B)
      (P : A -> B -> Prop) :
  (forall a g, I g -> P a (fst (f a g)) /\ I (snd (f a g))) ->
  forall l g, I g ->
    Forall2 P l (fst (mapM f l g)) /\ I (snd (mapM f l g)).
Proof.
  intros Hf l. induction l as [|a l IH]; intros g Hg; simpl.
  - split; [constructor | exact Hg].
  - unfold bind, ret. destruct (Hf a g Hg) as [Hp Hu].
    destruct (f a g) as [b g1]; simpl in *.
    destruct (IH g1 Hu) as [Hl Hu'].
    destruct (mapM f l g1) as [bs g2]; simpl in *.
    split; [constructor; assumption | exact Hu'].
Qed.

Lemma Forall2_nth {A B : Type} (P : A -> B -> Prop) (l : list A)
      (l' : list B) (i : nat) (a : A) :
  Forall2 P l l' -> nth_error l i = Some a ->
  exists b, nth_error l' i = Some b /\ P a b.
Proof.
  intros H. revert i. induction H as [|a0 b0 l l' Hab _ IH]; intros i Hi.
  - destruct i; discriminate.
  - destruct i as [|i]; simpl in *.
    + injection Hi as <-. now exists b0.
    + now apply IH.
Qed.

Lemma Forall2_right {A B : Type} (Q : B -> Prop) (l : list A) (l' : list B) :
  Forall2 (fun _ b => Q b) l l' -> Forall Q l'.
Proof. induction 1; constructor; assumption. Qed.

End Draws.

(** ** Particle.update *)

Section Update.

Lemma update_fields (e : Env) (p : Particle) (g : RNG) :
  vel (fst (update e p g)) = fst (update_vel e p g) /\
  pos (fst (update e p g)) =
    wrap e (Vector.add (pos p) (fst (update_vel e p g))) /\
  snd (update e p g) = snd (update_vel e p g).
Proof.
  unfold update, bind, ret. destruct (update_vel e p g) as [v g'].
  repeat split.
Qed.

Lemma wrap_bounds (e : Env) (q : Vector) :
  0 <= width e -> 0 <= height e ->
  -50 <= x (wrap e q) <= width e + 50 /\
  -50 <= y (wrap e q) <= height e + 50.
Proof.
  intros Hw Hh. unfold wrap; simpl.
  repeat match goal with |- context [Rlt_dec ?a ?b] =>
    destruct (Rlt_dec a b) end; lra.
Qed.

Lemma update_in_bounds (e : Env) (p : Particle) (g : RNG) :
  0 <= width e -> 0 <= height e ->
  in_bounds (width e) (height e) (fst (update e p g)).
Proof.
  intros Hw Hh. unfold in_bounds.
  destruct (update_fields e p g) as (_ & -> & _).
  now apply wrap_bounds.
Qed.

Lemma influence_linear (e : Env) (p : Particle) :
  0 < width e ->
  influence e p = 1 - update_d e p / (0.7 * width e).
Proof.
  intros Hw. unfold influence. rewrite map_from_one by assumption. lra.
Qed.

Lemma update_d_nonneg (e : Env) (p : Particle) : 0 <= update_d e p.
Proof. apply mag_nonneg. Qed.

End Update.

(** C2: after [update] the position lies in
    [-50, width+50] x [-50, height+50], whatever the particle (and its
    velocity) was before; hence it holds after any positive number of
    calls of [update] on a canvas of non-negative size. *)
Theorem update_wraps_into_margin (w h : R) :
  0 <= w -> 0 <= h ->
  (forall e p g, width e = w -> height e = h ->
     in_bounds w h (fst (update e p g))) /\
  (forall es p g, es <> [] ->
     Forall (fun e => width e = w /\ height e = h) es ->
     in_bounds w h (fst (updates es p g))).
Proof.
  intros Hw Hh.
  assert (Hone : forall e p g, width e = w -> height e = h ->
                 in_bounds w h (fst (update e p g))).
  { intros e p g <- <-. now apply update_in_bounds. }
  split; [exact Hone|].
  intros es. induction es as [|e es IH]; intros p g Hne Hall; [congruence|].
  inversion Hall as [|e' es' [He1 He2] Hall']; subst e' es'.
  simpl. unfold bind.
  pose proof (Hone e p g He1 He2) as Hb.
  destruct (update e p g) as [p1 g1]; simpl in Hb.
  destruct es as [|e2 es2].
  - simpl. exact Hb.
  - apply IH; [discriminate | exact Hall'].
Qed.

Lemma update_wraps_into_margin_witness :
  in_bounds 1000 800 (fst (update hover (still (-2000) 9000) half)) /\
  in_bounds 1000 800
    (fst (updates [drag_far; hover; drag_far] (still 0 0) half)).
Proof.
  assert (Hw : 0 <= 1000) by lra. assert (Hh : 0 <= 800) by lra.
  destruct (update_wraps_into_margin 1000 800 Hw Hh) as [H1 Hn].
  split.
  - apply H1; reflexivity.
  - apply Hn; [discriminate|].
    repeat constructor.
Defined.

(** C1 (as the code has it): on a canvas of positive width the influence
    is the unclamped line [1 - d / (0.7 * width)]: it is 1 at [d = 0], 0 at
    [d = 0.7 * width], at most 1, and non-negative exactly when
    [d <= 0.7 * width]; the drag branch adds
    [setMag(influence * 0.8)] of the vector to the pointer with that
    value, whatever its sign. *)
Theorem influence_unclamped (e : Env) (p : Particle) (g : RNG) :
  0 < width e ->
  influence e p = 1 - update_d e p / (0.7 * width e) /\
  (update_d e p = 0 -> influence e p = 1) /\
  (update_d e p = 0.7 * width e -> influence e p = 0) /\
  influence e p <= 1 /\
  (0 <= influence e p <-> update_d e p <= 0.7 * width e) /\
  (mouseIsPressed e = true ->
   vel (fst (update e p g)) =
     Vector.add (vel p)
       (Vector.setMag (Vector.sub (mouse e) (pos p)) (influence e p * 0.8))).
Proof.
  intros Hw. pose proof (influence_linear e p Hw) as Hi.
  pose proof (update_d_nonneg e p) as Hd.
  assert (Hk : 0 < 0.7 * width e) by lra.
  assert (Hq : 0 <= update_d e p / (0.7 * width e)).
  { apply Rmult_le_pos; [exact Hd|]. left. now apply Rinv_0_lt_compat. }
  split; [exact Hi|]. rewrite Hi.
  split; [intros ->; unfold Rdiv; lra|].
  split; [intros ->; unfold Rdiv; rewrite Rinv_r; lra|].
  split; [lra|].
  split.
  - split; intros H.
    + assert (update_d e p / (0.7 * width e) <= 1) by lra.
      apply (Rmult_le_compat_r (0.7 * width e)) in H0; [|lra].
      unfold Rdiv in H0. rewrite Rmult_assoc, Rinv_l in H0; lra.
    + assert (update_d e p / (0.7 * width e) <= 1); [|lra].
      apply (Rmult_le_reg_r (0.7 * width e)); [lra|].
      unfold Rdiv. rewrite Rmult_assoc, Rinv_l; lra.
  - intros Hp. destruct (update_fields e p g) as (-> & _ & _).
    unfold update_vel. rewrite Hp. simpl. now rewrite Hi.
Qed.

Lemma influence_unclamped_witness :
  0 < width hover /\
  influence hover (still 300 400) = 1 /\
  0 <= influence hover (still 0 0).
Proof.
  assert (Hw : 0 < width hover) by (simpl; lra).
  split; [exact Hw|].
  split.
  - destruct (influence_unclamped hover (still 300 400) half Hw)
      as (_ & H0 & _).
    apply H0. unfold update_d, Vector.dist, Vector.mag.
    apply sqrt_of_square; [lra|].
    unfold Vector.magSq, Vector.sub; simpl. lra.
  - destruct (influence_unclamped hover (still 0 0) half Hw)
      as (_ & _ & _ & _ & H & _).
    apply H. unfold update_d, Vector.dist, Vector.mag.
    replace (Vector.magSq _) with (500 * 500)
      by (unfold Vector.magSq, Vector.sub; simpl; lra).
    rewrite sqrt_square by lra. simpl. lra.
Defined.

(** C1 fails as stated: with the pointer pressed at (1400, 0) on a canvas
    1000 wide, the particle at the origin is at distance 1400 > 700; its
    influence is -1, outside [0, 1], and the drag branch adds a vector of
    "magnitude" -0.8, that is (-0.8, 0), pointing away from the pointer. *)
Lemma influence_unclamped_counterexample :
  update_d drag_far (still 0 0) = 1400 /\
  influence drag_far (still 0 0) = -1 /\
  ~ (0 <= influence drag_far (still 0 0) <= 1) /\
  influence drag_far (still 0 0) * 0.8 < 0 /\
  vel (fst (update drag_far (still 0 0) half)) = createVector (-0.8) 0.
Proof.
  assert (Hd : update_d drag_far (still 0 0) = 1400).
  { unfold update_d, Vector.dist, Vector.mag.
    apply sqrt_of_square; [lra|].
    unfold Vector.magSq, Vector.sub; simpl. lra. }
  assert (Hi : influence drag_far (still 0 0) = -1).
  { unfold influence. rewrite Hd. unfold P5.map. simpl. lra. }
  split; [exact Hd|]. split; [exact Hi|].
  split; [rewrite Hi; lra|]. split; [rewrite Hi; lra|].
  destruct (update_fields drag_far (still 0 0) half) as (-> & _ & _).
  change (fst (update_vel drag_far (still 0 0) half))
    with (Vector.add (vel (still 0 0))
            (Vector.setMag (Vector.sub (mouse drag_far) (pos (still 0 0)))
               (influence drag_far (still 0 0) * 0.8))).
  rewrite Hi.
  assert (Hm : Vector.mag (Vector.sub (mouse drag_far) (pos (still 0 0)))
               = 1400) by exact Hd.
  rewrite setMag_scale by (rewrite Hm; lra). rewrite Hm.
  unfold Vector.add, Vector.mult, Vector.sub; simpl.
  apply (f_equal2 createVector); lra.
Qed.

(** ** Particle.display *)

Section Alpha.

Variable w : R.
Hypothesis w_pos : 0 < w.

Lemma alpha_line (d : R) :
  P5.map d 0 (w * 0.7) 1.0 0.12 = 1 - 0.88 * (d / (0.7 * w)).
Proof. rewrite map_from_one by exact w_pos. lra. Qed.

Lemma alpha_range (d : R) : 0.06 <= alpha_of w d <= 1.
Proof.
  unfold alpha_of, constrain. minmax_cases; lra.
Qed.

Lemma scaled_mono (d1 d2 : R) :
  d1 <= d2 -> d1 / (0.7 * w) <= d2 / (0.7 * w).
Proof.
  intros H. unfold Rdiv. apply Rmult_le_compat_r; [|exact H].
  left. apply Rinv_0_lt_compat. lra.
Qed.

Lemma alpha_mono (d1 d2 : R) : d1 <= d2 -> alpha_of w d2 <= alpha_of w d1.
Proof.
  intros H. apply scaled_mono in H.
  unfold alpha_of, constrain. rewrite !alpha_line.
  set (a := d1 / (0.7 * w)) in *. set (b := d2 / (0.7 * w)) in *.
  minmax_cases; lra.
Qed.

Lemma alpha_at_pointer : alpha_of w 0 = 1.
Proof.
  unfold alpha_of, constrain. rewrite alpha_line.
  unfold Rdiv. rewrite Rmult_0_l.
  minmax_cases; lra.
Qed.

Lemma alpha_at_reach : alpha_of w (0.7 * w) = 0.12.
Proof.
  unfold alpha_of, constrain. rewrite alpha_line.
  unfold Rdiv. rewrite Rinv_r by lra.
  minmax_cases; lra.
Qed.

End Alpha.

(** C7: on a canvas of positive width the alpha used by [display] is
    [alpha_of width d] for the distance [d] to the pointer; as a function
    of [d] it is non-increasing, stays in [0.06, 1], is 1 at [d = 0] and
    0.12 at [d = 0.7 * width]. *)
Theorem display_alpha_fades (e : Env) :
  0 < width e ->
  (forall p, display_alpha e p = alpha_of (width e) (display_d e p)) /\
  (forall d1 d2, d1 <= d2 -> alpha_of (width e) d2 <= alpha_of (width e) d1) /\
  (forall d, 0.06 <= alpha_of (width e) d <= 1) /\
  (forall p, 0.06 <= display_alpha e p <= 1) /\
  alpha_of (width e) 0 = 1 /\
  alpha_of (width e) (0.7 * width e) = 0.12.
Proof.
  intros Hw.
  split; [reflexivity|].
  split; [intros d1 d2; now apply alpha_mono|].
  split; [intros d; now apply alpha_range|].
  split; [intros p; now apply alpha_range|].
  split; [now apply alpha_at_pointer | now apply alpha_at_reach].
Qed.

Lemma display_alpha_fades_witness :
  0 < width hover /\
  alpha_of 1000 0 = 1 /\ alpha_of 1000 (0.7 * 1000) = 0.12 /\
  alpha_of 1000 900 <= alpha_of 1000 350.
Proof.
  assert (Hw : 0 < width hover) by (simpl; lra).
  destruct (display_alpha_fades hover Hw) as (_ & Hm & _ & _ & H0 & H1).
  split; [exact Hw|].
  split; [exact H0|]. split; [exact H1|].
  apply Hm. lra.
Defined.

(** ** The velocity blend of [update] *)

Section Blend.

Lemma lerp_step (v target : Vector) (amt : R) :
  Vector.sub (Vector.lerp v target amt) v =
  Vector.mult (Vector.sub target v) amt.
Proof.
  unfold Vector.sub, Vector.lerp, Vector.mult; simpl.
  apply (f_equal2 createVector); ring.
Qed.

Lemma lerp_step_bound (v target : Vector) (amt : R) :
  0 <= amt ->
  Vector.mag (Vector.sub (Vector.lerp v target amt) v) <=
  amt * (Vector.mag target + Vector.mag v).
Proof.
  intros Ha. rewrite lerp_step, mag_mult, Rabs_right by lra.
  apply Rmult_le_compat_l; [exact Ha | apply mag_sub].
Qed.

Lemma mag_nvec (e : Env) (p : Particle) : Vector.mag (nvec e p) = 1.
Proof. apply mag_fromAngle. Qed.

(** A unit vector scaled by [a >= 0] plus a unit vector scaled by
    [b >= 0] is no longer than [a + b]. *)
Lemma mag_two_units (u1 u2 : Vector) (a b : R) :
  Vector.mag u1 = 1 -> Vector.mag u2 = 1 -> 0 <= a -> 0 <= b ->
  Vector.mag (Vector.add (Vector.mult u1 a) (Vector.mult u2 b)) <= a + b.
Proof.
  intros H1 H2 Ha Hb. eapply Rle_trans; [apply mag_add|].
  rewrite !mag_mult, H1, H2, !Rabs_right by lra. lra.
Qed.

End Blend.

(** C3: with the pointer not pressed, [update] sets the velocity to
    [lerp(vel, target, w)]: in wave mode [w = 0.05] and the target is the
    unit flow vector times [speed * 0.6] plus [fromAngle(phase + t*2) * 0.4];
    in particle mode [w = 0.06] and the target is the flow vector times
    [speed * 1.4] plus a jitter of length 0.5 whose direction is the next
    random angle.  In wave mode (speed non-negative) the target is no longer
    than [speed * 0.6 + 0.4] and the velocity changes by at most
    [0.05 * (|target| + |vel|)]. *)
Theorem blend_toward_target (e : Env) (p : Particle) (g : RNG) :
  mouseIsPressed e = false ->
  0 <= speed (preset e) ->
  let v' := vel (fst (update e p g)) in
  Vector.mag (nvec e p) = 1 /\
  match mode e with
  | wave =>
      let osc := Vector.mult (Vector.fromAngle (phase p + t e * 2)) 0.4 in
      let target :=
        Vector.add (Vector.mult (nvec e p) (speed (preset e) * 0.6)) osc in
      v' = Vector.lerp (vel p) target 0.05 /\
      Vector.mag target <= speed (preset e) * 0.6 + 0.4 /\
      Vector.mag (Vector.sub v' (vel p)) <=
        0.05 * (Vector.mag target + Vector.mag (vel p))
  | particle =>
      let jitter := Vector.mult (Vector.fromAngle (g 0%nat * TWO_PI)) 0.5 in
      let target :=
        Vector.add (Vector.mult (nvec e p) (speed (preset e) * 1.4)) jitter in
      v' = Vector.lerp (vel p) target 0.06 /\
      Vector.mag jitter = 0.5
  end.
Proof.
  intros Hp Hs v'. subst v'.
  split; [apply mag_nvec|].
  destruct (update_fields e p g) as (-> & _ & _).
  unfold update_vel. rewrite Hp.
  destruct (mode e); cbv zeta.
  - unfold ret; cbn [fst]. fold (wave_target e p).
    split; [reflexivity|].
    split.
    + unfold wave_target.
      apply mag_two_units;
        [apply mag_nvec | apply mag_fromAngle | lra | lra].
    + apply lerp_step_bound. lra.
  - unfold bind, random2D, rand, ret; cbn [fst].
    split; [reflexivity|].
    rewrite mag_mult, mag_fromAngle, Rabs_right; lra.
Qed.

Lemma blend_toward_target_witness :
  Vector.mag (Vector.sub (vel (fst (update hover (still 0 0) half)))
                         (vel (still 0 0)))
    <= 0.05 * (0.8 * 0.6 + 0.4 + 0) /\
  vel (fst (update ballistic (still 0 0) half)) =
    Vector.lerp (vel (still 0 0))
      (particle_target ballistic (still 0 0)
         (Vector.fromAngle (half 0%nat * TWO_PI))) 0.06.
Proof.
  assert (Hs : 0 <= speed preset0) by (simpl; lra).
  split.
  - destruct (blend_toward_target hover (still 0 0) half eq_refl Hs)
      as (_ & _ & Ht & Hd).
    eapply Rle_trans; [exact Hd|].
    assert (Hv : Vector.mag (vel (still 0 0)) = 0)
      by (apply mag_zero_iff; reflexivity).
    rewrite Hv. cbv zeta in Ht.
    change (speed (preset hover)) with 0.8 in *. lra.
  - destruct (blend_toward_target ballistic (still 0 0) half eq_refl Hs)
      as (_ & Hv & _).
    exact Hv.
Defined.

(** ** mousePressed *)

Section Click.

Variables mx my : R.

Lemma add_zero (v : Vector) : Vector.add v (createVector 0 0) = v.
Proof.
  destruct v as [a b]. unfold Vector.add; simpl.
  apply (f_equal2 createVector); ring.
Qed.

Lemma sub_add_cancel (v w : Vector) : Vector.sub (Vector.add v w) v = w.
Proof.
  destruct w as [a b]. unfold Vector.sub, Vector.add; simpl.
  apply (f_equal2 createVector); ring.
Qed.

Lemma click_dist (p : Particle) :
  P5.dist mx my (x (pos p)) (y (pos p)) =
  Vector.mag (Vector.sub (pos p) (createVector mx my)).
Proof. reflexivity. Qed.

Lemma at_pointer_dist (p : Particle) :
  pos p = createVector mx my ->
  P5.dist mx my (x (pos p)) (y (pos p)) = 0.
Proof.
  intros H. rewrite click_dist. apply mag_zero_iff.
  rewrite H. unfold Vector.sub; simpl.
  apply (f_equal2 createVector); ring.
Qed.

(** At distance 0 the difference vector is zero and [setMag] leaves it
    zero. *)
Lemma pushVec_at_pointer (p : Particle) (m : R) :
  pos p = createVector mx my -> pushVec mx my p m = createVector 0 0.
Proof.
  intros H. unfold pushVec.
  replace (Vector.sub (pos p) (createVector mx my)) with (createVector 0 0).
  - apply setMag_zero.
  - rewrite H. unfold Vector.sub; simpl.
    apply (f_equal2 createVector); ring.
Qed.

(** Away from the pointer the impulse is the difference vector scaled by
    [m / d > 0], of length [m]. *)
Lemma pushVec_away (p : Particle) (m : R) :
  let d := P5.dist mx my (x (pos p)) (y (pos p)) in
  0 < d -> 0 < m ->
  0 < m / d /\
  pushVec mx my p m =
    Vector.mult (Vector.sub (pos p) (createVector mx my)) (m / d) /\
  Vector.mag (pushVec mx my p m) = m.
Proof.
  intros d Hd Hm. subst d. rewrite click_dist in *.
  split; [now apply Rdiv_lt_0_compat|].
  unfold pushVec.
  split; [apply setMag_scale; lra|].
  rewrite mag_setMag by lra. apply Rabs_right. lra.
Qed.

Lemma burst_spec (p : Particle) (g : RNG) :
  uniform g ->
  burst_rel mx my p (fst (burst mx my p g)) /\
  uniform (snd (burst mx my p g)).
Proof.
  intros Hg. unfold burst_rel, burst.
  destruct (Rlt_dec _ 140) as [Hlt|Hge].
  - assert (Hr : 0.6 < 2.2) by lra.
    destruct (random2_range 0.6 2.2 g Hg Hr) as (_ & Hm & Hu).
    unfold bind, ret. destruct (random2 0.6 2.2 g) as [m g']; simpl in *.
    split; [|exact Hu].
    split; [reflexivity|]. split.
    + intros _. exists m. split; [lra | reflexivity].
    + intros H. lra.
  - unfold ret; simpl. split; [|exact Hg].
    split; [reflexivity|]. split; [intros H; lra | reflexivity].
Qed.

Lemma burst_at_pointer (p : Particle) (g : RNG) :
  pos p = createVector mx my -> vel (fst (burst mx my p g)) = vel p.
Proof.
  intros H. unfold burst.
  destruct (Rlt_dec _ 140) as [Hlt|Hge]; [|reflexivity].
  unfold bind, ret. destruct (random2 0.6 2.2 g) as [m g']; simpl.
  rewrite pushVec_at_pointer by assumption. apply add_zero.
Qed.

Lemma mousePressed_fields (s : State) (g : RNG) :
  shapeIndex (fst (mousePressed mx my s g)) =
    ((shapeIndex s + 1) mod 4)%nat /\
  particles (fst (mousePressed mx my s g)) =
    fst (mapM (burst mx my) (particles s) g).
Proof.
  unfold mousePressed, bind, ret.
  destruct (mapM (burst mx my) (particles s) g) as [ps g'].
  split; reflexivity.
Qed.

End Click.

Lemma mapM_cons_fst {A B : Type} (f : A -> Rand B) (a : A) (l : list A)
      (g : RNG) :
  fst (mapM f (a :: l) g) = fst (f a g) :: fst (mapM f l (snd (f a g))).
Proof.
  simpl. unfold bind, ret. destruct (f a g) as [b g1]; simpl.
  destruct (mapM f l g1) as [bs g2]. reflexivity.
Qed.

(** C4 (as the code has it): a click advances the shape index by one
    modulo 4 and keeps the number of particles; a particle at distance [d]
    from the pointer with [0 < d < 140] gets its velocity increased by a
    positive multiple of (position - pointer) whose length [m] satisfies
    [0.6 <= m <= 2.2]; a particle with [d >= 140] keeps its velocity.
    (Nothing is said here about [d = 0].) *)
Theorem click_bursts (mx my : R) (s : State) (g : RNG) (i : nat)
        (p : Particle) :
  uniform g ->
  nth_error (particles s) i = Some p ->
  let s' := fst (mousePressed mx my s g) in
  let d := P5.dist mx my (x (pos p)) (y (pos p)) in
  shapeIndex s' = ((shapeIndex s + 1) mod List.length shapes)%nat /\
  List.length (particles s') = List.length (particles s) /\
  exists p',
    nth_error (particles s') i = Some p' /\
    pos p' = pos p /\
    (0 < d < 140 ->
     exists m k,
       0.6 <= m <= 2.2 /\ 0 < k /\
       vel p' =
         Vector.add (vel p)
           (Vector.mult (Vector.sub (pos p) (createVector mx my)) k) /\
       Vector.mag (Vector.sub (vel p') (vel p)) = m) /\
    (140 <= d -> vel p' = vel p).
Proof.
  intros Hg Hi s' d. subst s'.
  destruct (mousePressed_fields mx my s g) as [Hs Hp]. rewrite Hs, Hp.
  destruct (mapM_Forall2 uniform (burst mx my) (burst_rel mx my)
              (burst_spec mx my) (particles s) g Hg) as [HF _].
  split; [reflexivity|].
  split; [symmetry; exact (Forall2_length HF)|].
  destruct (Forall2_nth _ _ _ _ _ HF Hi) as (p' & Hn & Hpos & Hin & Hout).
  exists p'. split; [exact Hn|]. split; [exact Hpos|].
  split.
  - intros [Hd0 Hd1]. destruct (Hin Hd1) as (m & Hm & Hv).
    assert (Hmpos : 0 < m) by lra.
    destruct (pushVec_away mx my p m Hd0 Hmpos) as (Hk & Hpv & Hmag).
    exists m, (m / d). split; [lra|]. split; [exact Hk|].
    split.
    + rewrite Hv. f_equal. exact Hpv.
    + rewrite Hv, sub_add_cancel. exact Hmag.
  - intros Hd. now rewrite (Hout Hd).
Qed.

Lemma click_bursts_witness :
  uniform half /\
  shapeIndex (fst (mousePressed 300 400 duo half)) = 0%nat /\
  exists p' m,
    nth_error (particles (fst (mousePressed 300 400 duo half))) 1 = Some p' /\
    0.6 <= m <= 2.2 /\
    Vector.mag (Vector.sub (vel p') (vel (still 330 440))) = m.
Proof.
  split; [exact uniform_half|].
  destruct (click_bursts 300 400 duo half 1 (still 330 440)
              uniform_half eq_refl) as (Hs & _ & p' & Hn & _ & Hin & _).
  split; [exact Hs|].
  assert (Hd : P5.dist 300 400 (x (pos (still 330 440)))
                 (y (pos (still 330 440))) = 50).
  { unfold P5.dist; simpl. apply sqrt_of_square; lra. }
  destruct Hin as (m & k & Hm & _ & _ & Hmag); [rewrite Hd; lra|].
  exists p', m. repeat split; try assumption; lra.
Defined.

(** C4 fails as stated at distance 0: the first particle of [duo] sits
    exactly under the pointer (distance 0 < 140), yet the click leaves its
    velocity as it was, so the impulse it received has length 0, not a
    length in [0.6, 2.2]. *)
Lemma click_bursts_counterexample :
  let p := still 300 400 in
  let p' := hd p (particles (fst (mousePressed 300 400 duo half))) in
  nth_error (particles duo) 0 = Some p /\
  P5.dist 300 400 (x (pos p)) (y (pos p)) < 140 /\
  vel p' = vel p /\
  ~ (0.6 <= Vector.mag (Vector.sub (vel p') (vel p)) <= 2.2).
Proof.
  intros p p'.
  assert (Hv : vel p' = vel p).
  { subst p'. destruct (mousePressed_fields 300 400 duo half) as [_ ->].
    change (particles duo) with [still 300 400; still 330 440].
    rewrite mapM_cons_fst. cbn [hd].
    apply burst_at_pointer. reflexivity. }
  split; [reflexivity|].
  split; [rewrite (at_pointer_dist 300 400 p eq_refl); lra|].
  split; [exact Hv|].
  rewrite Hv.
  replace (Vector.mag (Vector.sub (vel p) (vel p))) with 0; [lra|].
  symmetry. apply mag_zero_iff. unfold Vector.sub; simpl.
  apply (f_equal2 createVector); ring.
Qed.

(** C9: a particle whose position equals the pointer position is at
    distance 0 (inside the 140 radius); the impulse [pushVec] computed for
    it is the zero vector whatever magnitude was drawn, and the click leaves
    its velocity unchanged. *)
Theorem click_at_particle (mx my : R) (s : State) (g : RNG) (i : nat)
        (p : Particle) :
  nth_error (particles s) i = Some p ->
  pos p = createVector mx my ->
  P5.dist mx my (x (pos p)) (y (pos p)) = 0 /\
  P5.dist mx my (x (pos p)) (y (pos p)) < 140 /\
  (forall m, pushVec mx my p m = createVector 0 0) /\
  exists p',
    nth_error (particles (fst (mousePressed mx my s g))) i = Some p' /\
    vel p' = vel p.
Proof.
  intros Hi Hpos.
  pose proof (at_pointer_dist mx my p Hpos) as Hd.
  split; [exact Hd|]. split; [rewrite Hd; lra|].
  split; [intros m; now apply pushVec_at_pointer|].
  destruct (mousePressed_fields mx my s g) as [_ ->].
  destruct (mapM_Forall2 (fun _ => True) (burst mx my)
              (fun q q' => pos q = createVector mx my -> vel q' = vel q)
              (fun a g' _ => conj (burst_at_pointer mx my a g') I)
              (particles s) g I) as [HF _].
  destruct (Forall2_nth _ _ _ _ _ HF Hi) as (p' & Hn & Hp').
  exists p'. split; [exact Hn | now apply Hp'].
Qed.

Lemma click_at_particle_witness :
  exists p',
    nth_error (particles (fst (mousePressed 300 400 duo half))) 0 = Some p' /\
    vel p' = createVector 0 0.
Proof.
  destruct (click_at_particle 300 400 duo half 0 (still 300 400)
              eq_refl eq_refl) as (_ & _ & _ & p' & Hn & Hv).
  exists p'. split; [exact Hn | exact Hv].
Defined.

(** ** keyPressed: reseed *)

Section Reseed.

Variables w h : R.
Hypothesis w_nonneg : 0 <= w.
Hypothesis h_nonneg : 0 <= h.

Lemma reseed_spec (p : Particle) (g : RNG) :
  uniform g ->
  scattered w h (fst (reseed w h p g)) /\ uniform (snd (reseed w h p g)).
Proof.
  intros Hg. unfold reseed, random1, random2D, rand, bind, ret, scattered.
  simpl. pose proof (Hg 0%nat) as H0. pose proof (Hg 1%nat) as H1.
  repeat split; try nra.
  - rewrite mag_mult, mag_fromAngle, Rabs_right; lra.
  - apply Hg.
  - apply Hg.
Qed.

Lemma keyPressed_reseed (key : string) (fresh : RNG) (s : State) (g : RNG) :
  key = "r"%string \/ key = "R"%string ->
  particles (fst (keyPressed key w h fresh s g)) =
    fst (mapM (reseed w h) (particles s) fresh).
Proof.
  intros [-> | ->]; unfold keyPressed; cbn [String.eqb Ascii.eqb Bool.eqb
    orb andb String.leb String.compare Ascii.compare];
    unfold bind, ret;
    destruct (mapM (reseed w h) (particles s) fresh); reflexivity.
Qed.

End Reseed.

(** C5: after the reseed key on a canvas of non-negative size, the number
    of particles is unchanged, every particle's position lies in
    [0, width] x [0, height] and every particle's velocity has length
    0.2. *)
Theorem reseed_scatters (key : string) (w h : R) (fresh : RNG) (s : State)
        (g : RNG) :
  key = "r"%string \/ key = "R"%string ->
  0 <= w -> 0 <= h -> uniform fresh ->
  let s' := fst (keyPressed key w h fresh s g) in
  List.length (particles s') = List.length (particles s) /\
  Forall (scattered w h) (particles s').
Proof.
  intros Hk Hw Hh Hf s'. subst s'.
  rewrite (keyPressed_reseed w h key fresh s g Hk).
  destruct (mapM_Forall2 uniform (reseed w h) (fun _ => scattered w h)
              (reseed_spec w h Hw Hh) (particles s) fresh Hf) as [HF _].
  split; [symmetry; exact (Forall2_length HF)|].
  exact (Forall2_right _ _ _ HF).
Qed.

Lemma reseed_scatters_witness :
  Forall (scattered 1000 800)
    (particles (fst (keyPressed "r" 1000 800 half duo high))).
Proof.
  assert (Hw : 0 <= 1000) by lra. assert (Hh : 0 <= 800) by lra.
  exact (proj2 (reseed_scatters "r" 1000 800 half duo high
                  (or_introl eq_refl) Hw Hh uniform_half)).
Defined.

(** ** applyPreset and the constructor *)

Section Sizes.

Variable tpl : Preset.

Lemma resize_spec (p : Particle) (g : RNG) :
  uniform g ->
  jittered tpl 0.7 1.5 (fst (resize (Some tpl) p g)) /\
  uniform (snd (resize (Some tpl) p g)).
Proof.
  intros Hg. assert (Hr : 0.7 < 1.5) by lra.
  destruct (random2_range 0.7 1.5 g Hg Hr) as (_ & Hj & Hu).
  unfold resize, bind, ret, jittered.
  destruct (random2 0.7 1.5 g) as [j g']; simpl in *.
  split; [|exact Hu]. exists j. split; [exact Hj | reflexivity].
Qed.

Lemma applyPreset_fields (i : option Z) (s : State) (g : RNG) :
  let r := applyPreset i s g in
  presets (fst r) = presets s /\
  cur_preset (fst r) = presets_at (presets s) i /\
  curPreset (fst r) = i /\
  particles (fst r) =
    fst (mapM (resize (presets_at (presets s) i)) (particles s) g) /\
  snd r = snd (mapM (resize (presets_at (presets s) i)) (particles s) g).
Proof.
  unfold applyPreset, bind, ret.
  destruct (mapM _ (particles s) g) as [ps g']. repeat split.
Qed.

Lemma applyPreset_sizes (i : option Z) (s : State) (g : RNG) :
  uniform g -> presets_at (presets s) i = Some tpl ->
  Forall (jittered tpl 0.7 1.5) (particles (fst (applyPreset i s g))) /\
  uniform (snd (applyPreset i s g)).
Proof.
  intros Hg Hi.
  destruct (applyPreset_fields i s g) as (_ & _ & _ & -> & ->).
  rewrite Hi.
  destruct (mapM_Forall2 uniform (resize (Some tpl))
              (fun _ => jittered tpl 0.7 1.5) resize_spec
              (particles s) g Hg) as [HF Hu].
  split; [exact (Forall2_right _ _ _ HF) | exact Hu].
Qed.

Lemma newParticle_size (w h : R) (g : RNG) :
  size (fst (newParticle w h (Some tpl) g)) =
  Some (particleSize tpl * (g 5%nat * (1.6 - 0.7) + 0.7)).
Proof.
  unfold newParticle, random1, random2, random2D, rand, bind, ret.
  destruct (Rlt_dec 1.6 0.7) as [Hc|_]; [lra|].
  destruct (Rlt_dec 10000 100) as [Hc|_]; [lra|].
  reflexivity.
Qed.

End Sizes.

(** C6: [applyPreset] never changes the [presets] array; for a valid index
    it installs the fields of template [i] as the active preset, so applying
    the same index twice in a row gives the same active preset both times;
    after each call every particle's size is the template's [particleSize]
    times a factor in [0.7, 1.5). *)
Theorem applyPreset_copies (i : Z) (s : State) (g : RNG) (tpl : Preset) :
  uniform g ->
  presets_at (presets s) (Some i) = Some tpl ->
  let r1 := applyPreset (Some i) s g in
  let r2 := applyPreset (Some i) (fst r1) (snd r1) in
  (forall i0 s0 g0, presets (fst (applyPreset i0 s0 g0)) = presets s0) /\
  presets (fst r1) = presets s /\
  presets (fst r2) = presets s /\
  cur_preset (fst r1) = Some tpl /\
  cur_preset (fst r2) = cur_preset (fst r1) /\
  Forall (jittered tpl 0.7 1.5) (particles (fst r1)) /\
  Forall (jittered tpl 0.7 1.5) (particles (fst r2)).
Proof.
  intros Hg Hi r1 r2.
  assert (Hkeep : forall i0 s0 g0,
             presets (fst (applyPreset i0 s0 g0)) = presets s0).
  { intros i0 s0 g0. now destruct (applyPreset_fields i0 s0 g0) as (H & _). }
  destruct (applyPreset_fields (Some i) s g) as (_ & Hc1 & _).
  fold r1 in Hc1.
  destruct (applyPreset_sizes tpl (Some i) s g Hg Hi) as [Hs1 Hu1].
  fold r1 in Hs1, Hu1.
  assert (Hp1 : presets (fst r1) = presets s) by apply Hkeep.
  assert (Hi2 : presets_at (presets (fst r1)) (Some i) = Some tpl)
    by now rewrite Hp1.
  destruct (applyPreset_fields (Some i) (fst r1) (snd r1)) as (_ & Hc2 & _).
  fold r2 in Hc2.
  destruct (applyPreset_sizes tpl (Some i) (fst r1) (snd r1) Hu1 Hi2)
    as [Hs2 _].
  fold r2 in Hs2.
  split; [exact Hkeep|]. split; [exact Hp1|].
  split; [unfold r2; now rewrite Hkeep|].
  split; [now rewrite Hc1|].
  split; [now rewrite Hc2, Hi2, Hc1|].
  split; assumption.
Qed.

Lemma applyPreset_copies_witness :
  cur_preset (fst (applyPreset (Some 2%Z) duo half)) =
    Some (mkPreset 280 65 90 0.6 0.001 3.8) /\
  presets (fst (applyPreset (Some 2%Z) duo half)) = setup_presets.
Proof.
  destruct (applyPreset_copies 2 duo half (mkPreset 280 65 90 0.6 0.001 3.8)
              uniform_half eq_refl) as (_ & Hp & _ & Hc & _).
  split; [exact Hc | exact Hp].
Defined.

(** C10: the constructor sets [size] to [preset.particleSize] times a
    factor drawn from [0.7, 1.6) (the sixth draw of the constructor), while
    [applyPreset] uses a factor from [0.7, 1.5); with a positive
    [particleSize] some run of the constructor yields a particle at least
    1.5 times [particleSize] big, larger than every particle left by any
    [applyPreset] of the same template. *)
Theorem constructor_jitter_wider (w h : R) (tpl : Preset) (g : RNG) :
  uniform g ->
  0 < particleSize tpl ->
  jittered tpl 0.7 1.6 (fst (newParticle w h (Some tpl) g)) /\
  (forall i s g', uniform g' -> presets_at (presets s) i = Some tpl ->
     Forall (jittered tpl 0.7 1.5) (particles (fst (applyPreset i s g')))) /\
  exists g0 z0,
    uniform g0 /\
    size (fst (newParticle w h (Some tpl) g0)) = Some z0 /\
    1.5 * particleSize tpl <= z0 < 1.6 * particleSize tpl /\
    forall i s g', uniform g' -> presets_at (presets s) i = Some tpl ->
      Forall (fun p => exists z, size p = Some z /\ z < z0)
             (particles (fst (applyPreset i s g'))).
Proof.
  intros Hg Hps.
  split.
  { exists (g 5%nat * (1.6 - 0.7) + 0.7).
    split; [pose proof (Hg 5%nat); lra | apply newParticle_size]. }
  split.
  { intros i s g' Hg' Hi. now apply applyPreset_sizes. }
  assert (Hhigh : uniform high) by (intros n; unfold high; lra).
  exists high, (particleSize tpl * (high 5%nat * (1.6 - 0.7) + 0.7)).
  split; [exact Hhigh|]. split; [apply newParticle_size|].
  unfold high. split; [nra|].
  intros i s g' Hg' Hi.
  destruct (applyPreset_sizes tpl i s g' Hg' Hi) as [HF _].
  eapply Forall_impl; [|exact HF].
  intros p (j & Hj & Hsz). exists (particleSize tpl * j).
  split; [exact Hsz | nra].
Qed.

Lemma constructor_jitter_wider_witness :
  jittered preset0 0.7 1.6 (fst (newParticle 1000 800 (Some preset0) half)).
Proof.
  assert (Hps : 0 < particleSize preset0) by (simpl; lra).
  exact (proj1 (constructor_jitter_wider 1000 800 preset0 half
                  uniform_half Hps)).
Defined.

(** ** keyPressed: preset keys *)

Section PresetKeys.

Lemma guard_keys (key : string) :
  keyboard_key key = true -> preset_guard key = true ->
  key = "1"%string \/ key = "2"%string \/ key = "3"%string \/
  key = "4"%string.
Proof.
  destruct key as [|c [|c2 rest]].
  - intros _ H. discriminate H.
  - intros _.
    destruct c as [[] [] [] [] [] [] [] []]; vm_compute; intros H;
      try discriminate H; auto.
  - destruct c as [[] [] [] [] [] [] [] []]; vm_compute; intros Hk H;
      discriminate.
Qed.

Lemma int_preset_key (key : string) :
  key = "1"%string \/ key = "2"%string \/ key = "3"%string \/
  key = "4"%string ->
  exists n, int key = Some (n + 1)%Z /\ (0 <= n <= 3)%Z.
Proof.
  intros [-> | [-> | [-> | ->]]];
    [exists 0%Z | exists 1%Z | exists 2%Z | exists 3%Z];
    (split; [reflexivity | lia]).
Qed.

Lemma setup_presets_at (n : Z) :
  (0 <= n <= 3)%Z ->
  exists tpl, presets_at setup_presets (Some n) = Some tpl /\
              nth_error setup_presets (Z.to_nat n) = Some tpl.
Proof.
  intros Hn.
  assert (Hc : (n = 0 \/ n = 1 \/ n = 2 \/ n = 3)%Z) by lia.
  destruct Hc as [-> | [-> | [-> | ->]]]; eexists; split; reflexivity.
Qed.

(** Without the guard of [keyPressed] an index outside 0..3 would install
    the empty object. *)
Remark applyPreset_unguarded :
  cur_preset (fst (applyPreset (Some 7%Z) duo half)) = None.
Proof.
  now destruct (applyPreset_fields (Some 7%Z) duo half) as (_ & -> & _).
Qed.

End PresetKeys.

(** [setup] leaves the four templates in [presets], a copy of the first
    one active and [N] particles. *)
Lemma pushN_length (n : nat) (w h : R) (pr : option Preset) (g : RNG) :
  List.length (fst (pushN n w h pr g)) = n.
Proof.
  revert g. induction n as [|n IH]; intros g; simpl; [reflexivity|].
  unfold bind, ret. destruct (newParticle w h pr g) as [p g1].
  specialize (IH g1). destruct (pushN n w h pr g1) as [ps g2].
  simpl in *. now rewrite IH.
Qed.

Lemma setup_establishes (w h : R) (g : RNG) :
  presets (fst (setup w h g)) = setup_presets /\
  valid_active (fst (setup w h g)) /\
  List.length (particles (fst (setup w h g))) = N.
Proof.
  unfold setup, applyPreset, bind, ret. cbn [mapM particles initial ret].
  unfold ret. cbn [fst snd cur_preset particles presets app].
  pose proof (pushN_length N w h
                (presets_at setup_presets (Some 0%Z)) g) as Hlen.
  destruct (pushN N w h (presets_at setup_presets (Some 0%Z)) g) as [ps g'].
  cbn [fst particles presets cur_preset] in *.
  split; [reflexivity|]. split; [|exact Hlen].
  exists 0%nat, preset0. split; reflexivity.
Qed.

(** A click touches neither the templates nor the active preset. *)
Lemma mousePressed_keeps_preset (mx my : R) (s : State) (g : RNG) :
  presets (fst (mousePressed mx my s g)) = presets s /\
  cur_preset (fst (mousePressed mx my s g)) = cur_preset s.
Proof.
  unfold mousePressed, bind, ret.
  destruct (mapM (burst mx my) (particles s) g) as [ps g'].
  split; reflexivity.
Qed.

(** C8: for every key the keyboard can deliver, [keyPressed] keeps the
    [presets] array and leaves the active preset equal to one of the four
    templates; a key whose number minus one falls outside 0..3 is ignored
    outright (the state and the random stream are returned as they
    were). *)
Theorem preset_keys_guarded (key : string) (w h : R) (fresh : RNG)
        (s : State) (g : RNG) :
  keyboard_key key = true ->
  presets s = setup_presets ->
  valid_active s ->
  let s' := fst (keyPressed key w h fresh s g) in
  presets s' = setup_presets /\
  valid_active s' /\
  (forall i, int key = Some (i + 1)%Z -> (i < 0 \/ 3 < i)%Z ->
     keyPressed key w h fresh s g = (s, g)).
Proof.
  intros Hk Hp Hv s'. subst s'. unfold keyPressed.
  destruct (String.eqb_spec key " ") as [-> | _].
  { unfold ret; cbn [fst]. split; [exact Hp|]. split; [exact Hv|].
    intros i Hi. discriminate Hi. }
  destruct ((key =? "s") || (key =? "S"))%string.
  { unfold ret; cbn [fst]. repeat split; assumption. }
  fold (preset_guard key).
  destruct (preset_guard key) eqn:Hguard.
  { pose proof (guard_keys key Hk Hguard) as Hkey.
    destruct (int_preset_key key Hkey) as (n & Hint & Hn).
    rewrite Hint. cbn [option_map].
    replace (n + 1 - 1)%Z with n by lia.
    destruct (applyPreset_fields (Some n) s g) as (Hps & Hc & _).
    destruct (setup_presets_at n Hn) as (tpl & Hat & Hnth).
    split; [now rewrite Hps|]. split.
    - exists (Z.to_nat n), tpl. rewrite Hps, Hc, Hp. split; assumption.
    - intros i Hi Hout. injection Hi as Hi. lia. }
  destruct ((key =? "r") || (key =? "R"))%string eqn:Hr.
  { apply orb_true_iff in Hr. rewrite !String.eqb_eq in Hr.
    unfold bind, ret.
    destruct (mapM (reseed w h) (particles s) fresh) as [ps g'].
    cbn [fst presets cur_preset].
    split; [exact Hp|]. split; [exact Hv|].
    intros i Hi. destruct Hr as [-> | ->]; discriminate Hi. }
  unfold ret; cbn [fst]. repeat split; assumption.
Qed.

Lemma preset_keys_guarded_witness :
  keyPressed "7" 1000 800 high duo half = (duo, half) /\
  valid_active (fst (keyPressed "3" 1000 800 high duo half)).
Proof.
  assert (Hv : valid_active duo).
  { exists 0%nat, preset0. split; reflexivity. }
  split.
  - destruct (preset_keys_guarded "7" 1000 800 high duo half
                eq_refl eq_refl Hv) as (_ & _ & H).
    apply (H 6%Z); [reflexivity | lia].
  - destruct (preset_keys_guarded "3" 1000 800 high duo half
                eq_refl eq_refl Hv) as (_ & H & _).
    exact H.
Defined.

(** * Further properties of the sketch *)

(** ** Mode toggle and shape cycle *)

Lemma toggle_involutive (m : Mode) : toggle (toggle m) = m.
Proof. now destruct m. Qed.

(** X1: the space key swaps the mode (wave <-> particle), keeps the
    particles and draws no random number; pressing it a second time gives
    back exactly the state and the random stream from before the first. *)
Theorem space_twice_restores (w h : R) (fresh fresh' : RNG) (s : State)
        (g : RNG) :
  let r1 := keyPressed " " w h fresh s g in
  cur_mode (fst r1) = toggle (cur_mode s) /\
  cur_mode (fst r1) <> cur_mode s /\
  particles (fst r1) = particles s /\
  snd r1 = g /\
  keyPressed " " w h fresh' (fst r1) (snd r1) = (s, g).
Proof.
  intros r1. subst r1. unfold keyPressed, ret. cbn [String.eqb Ascii.eqb Bool.eqb fst snd].
  cbn [cur_mode particles shapeIndex cur_t presets curPreset cur_preset].
  split; [reflexivity|]. split; [destruct (cur_mode s); discriminate|].
  split; [reflexivity|]. split; [reflexivity|].
  rewrite toggle_involutive. now destruct s.
Qed.

Lemma clicks_shape (cs : list (R * R)) (s : State) (g : RNG) :
  (shapeIndex s < 4)%nat ->
  shapeIndex (fst (clicks cs s g)) =
    ((shapeIndex s + List.length cs) mod 4)%nat.
Proof.
  revert s g. induction cs as [|[mx my] cs IH]; intros s g Hs.
  - cbn [clicks List.length]. unfold ret; cbn [fst].
    rewrite Nat.add_0_r. symmetry. now apply Nat.mod_small.
  - cbn [clicks List.length]. unfold bind.
    destruct (mousePressed_fields mx my s g) as [Hsi _].
    destruct (mousePressed mx my s g) as [s1 g1]; cbn [fst] in Hsi.
    rewrite IH.
    + rewrite Hsi. rewrite Nat.Div0.add_mod_idemp_l. f_equal. lia.
    + rewrite Hsi. apply Nat.mod_upper_bound. discriminate.
Qed.

(** X2: from a valid shape index, any sequence of clicks leaves the index
    at the old one plus the number of clicks modulo the number of shapes,
    so it stays a valid index into [shapes]; as many clicks as there are
    shapes bring it back to where it was. *)
Theorem clicks_cycle_shape (cs : list (R * R)) (s : State) (g : RNG) :
  (shapeIndex s < List.length shapes)%nat ->
  let s' := fst (clicks cs s g) in
  shapeIndex s' = ((shapeIndex s + List.length cs) mod List.length shapes)%nat /\
  (shapeIndex s' < List.length shapes)%nat /\
  (List.length cs = List.length shapes -> shapeIndex s' = shapeIndex s).
Proof.
  intros Hs s'. subst s'. change (List.length shapes) with 4%nat in *.
  rewrite (clicks_shape cs s g Hs).
  split; [reflexivity|].
  split; [apply Nat.mod_upper_bound; discriminate|].
  intros ->. rewrite Nat.Div0.add_mod, Nat.Div0.mod_same, Nat.add_0_r.
  rewrite Nat.Div0.mod_mod. now apply Nat.mod_small.
Qed.

Lemma clicks_cycle_shape_witness :
  shapeIndex (fst (clicks [(300, 400); (0, 0); (10, 20); (700, 5)] duo half))
  = 3%nat.
Proof.
  assert (Hs : (shapeIndex duo < List.length shapes)%nat) by (simpl; lia).
  destruct (clicks_cycle_shape [(300, 400); (0, 0); (10, 20); (700, 5)]
              duo half Hs) as (_ & _ & H).
  exact (H eq_refl).
Defined.

(** ** Frame conditions of the event handlers *)

Lemma mapM_pure {A B : Type} (f : A -> Rand B) (P : A -> B -> Prop) :
  (forall a g, P a (fst (f a g))) ->
  forall l g, Forall2 P l (fst (mapM f l g)).
Proof.
  intros Hf l g.
  apply (mapM_Forall2 (fun _ => True) f P (fun a g' _ => conj (Hf a g') I) l g I).
Qed.

Lemma Forall2_same {A : Type} (P : A -> A -> Prop) (l : list A) :
  (forall a, P a a) -> Forall2 P l l.
Proof. intros H. induction l; constructor; auto. Qed.

Lemma same_clock_refl (p : Particle) : same_clock p p.
Proof. repeat split. Qed.

Lemma resize_keeps (pr : option Preset) (p : Particle) (g : RNG) :
  same_clock p (fst (resize pr p g)) /\
  pos (fst (resize pr p g)) = pos p /\ vel (fst (resize pr p g)) = vel p.
Proof.
  unfold resize, bind, ret. destruct (random2 0.7 1.5 g) as [j g'].
  repeat split.
Qed.

Lemma reseed_keeps (w h : R) (p : Particle) (g : RNG) :
  same_clock p (fst (reseed w h p g)) /\
  size (fst (reseed w h p g)) = size p.
Proof. unfold reseed, random1, random2D, rand, bind, ret. repeat split. Qed.

Lemma burst_keeps (mx my : R) (p : Particle) (g : RNG) :
  same_clock p (fst (burst mx my p g)) /\
  pos (fst (burst mx my p g)) = pos p /\
  size (fst (burst mx my p g)) = size p.
Proof.
  unfold burst. destruct (Rlt_dec _ 140).
  - unfold bind, ret. destruct (random2 0.6 2.2 g). repeat split.
  - repeat split.
Qed.

(** X3: with the four templates in [presets], the key of the digit
    [k + 1] ([k < 4]) makes template [k] the active preset, sets
    [curPreset] to [k], gives every particle a size of that template's
    [particleSize] times a factor in [0.7, 1.5), and leaves positions and
    velocities as they were. *)
Theorem digit_key_selects (k : nat) (w h : R) (fresh : RNG) (s : State)
        (g : RNG) :
  (k < 4)%nat ->
  presets s = setup_presets ->
  uniform g ->
  let key := String (ascii_of_nat (49 + k)) EmptyString in
  let s' := fst (keyPressed key w h fresh s g) in
  exists tpl,
    nth_error setup_presets k = Some tpl /\
    cur_preset s' = Some tpl /\
    curPreset s' = Some (Z.of_nat k) /\
    Forall (jittered tpl 0.7 1.5) (particles s') /\
    Forall2 (fun p p' => pos p' = pos p /\ vel p' = vel p)
            (particles s) (particles s').
Proof.
  intros Hk Hp Hg key s'. subst key s'.
  assert (Hkey : keyPressed (String (ascii_of_nat (49 + k)) EmptyString)
                   w h fresh s g
                 = applyPreset (Some (Z.of_nat k)) s g).
  { destruct k as [|[|[|[|k]]]]; [reflexivity .. | lia]. }
  rewrite Hkey.
  assert (Hat : exists tpl, nth_error setup_presets k = Some tpl /\
                presets_at (presets s) (Some (Z.of_nat k)) = Some tpl).
  { rewrite Hp. destruct k as [|[|[|[|k]]]]; [eexists; split; reflexivity .. | lia]. }
  destruct Hat as (tpl & Hnth & Hat).
  destruct (applyPreset_fields (Some (Z.of_nat k)) s g)
    as (_ & Hc & Hi & Hps & _).
  destruct (applyPreset_sizes tpl _ s g Hg Hat) as [Hsz _].
  exists tpl. split; [exact Hnth|]. split; [now rewrite Hc|].
  split; [exact Hi|]. split; [exact Hsz|].
  rewrite Hps. apply mapM_pure. intros a g'. apply resize_keeps.
Qed.

Lemma digit_key_selects_witness :
  cur_preset (fst (keyPressed "3" 1000 800 high duo half)) =
    Some (mkPreset 280 65 90 0.6 0.001 3.8) /\
  curPreset (fst (keyPressed "3" 1000 800 high duo half)) = Some 2%Z.
Proof.
  assert (Hk : (2 < 4)%nat) by lia.
  destruct (digit_key_selects 2 1000 800 high duo half Hk eq_refl uniform_half)
    as (tpl & Hn & Hc & Hi & _).
  injection Hn as <-. split; [exact Hc | exact Hi].
Defined.

(** X4: whatever the key, [keyPressed] changes neither the shape index,
    the time [t], the [presets] array nor the number of particles, and it
    leaves every particle's [prev], [phase], [life] and [seed] alone. *)
Theorem keyPressed_frame (key : string) (w h : R) (fresh : RNG) (s : State)
        (g : RNG) :
  let s' := fst (keyPressed key w h fresh s g) in
  shapeIndex s' = shapeIndex s /\
  cur_t s' = cur_t s /\
  presets s' = presets s /\
  List.length (particles s') = List.length (particles s) /\
  Forall2 same_clock (particles s) (particles s').
Proof.
  intros s'. subst s'. unfold keyPressed.
  assert (Hsame : Forall2 same_clock (particles s) (particles s))
    by (apply Forall2_same, same_clock_refl).
  destruct (key =? " ")%string.
  { unfold ret; cbn [fst shapeIndex cur_t presets particles].
    repeat split; assumption. }
  destruct ((key =? "s") || (key =? "S"))%string.
  { unfold ret; cbn [fst]. repeat split; assumption. }
  destruct (String.leb "1" key && String.leb key "4")%string.
  { set (i := option_map (fun n => (n - 1)%Z) (int key)).
    destruct (applyPreset_fields i s g) as (Hp & _ & _ & Hps & _).
    assert (HF : Forall2 same_clock (particles s)
                   (particles (fst (applyPreset i s g)))).
    { rewrite Hps. apply mapM_pure. intros a g'. apply resize_keeps. }
    unfold applyPreset at 1 2, bind, ret.
    destruct (mapM _ (particles s) g) as [ps g']; cbn [fst shapeIndex cur_t].
    split; [reflexivity|]. split; [reflexivity|]. split; [exact Hp|].
    split; [symmetry; exact (Forall2_length HF) | exact HF]. }
  destruct ((key =? "r") || (key =? "R"))%string.
  { assert (HF : Forall2 same_clock (particles s)
                   (fst (mapM (reseed w h) (particles s) fresh))).
    { apply mapM_pure. intros a g'. apply reseed_keeps. }
    unfold bind, ret.
    destruct (mapM (reseed w h) (particles s) fresh) as [ps g'].
    cbn [fst shapeIndex cur_t presets particles] in *.
    split; [reflexivity|]. split; [reflexivity|]. split; [reflexivity|].
    split; [symmetry; exact (Forall2_length HF) | exact HF]. }
  unfold ret; cbn [fst]. repeat split; assumption.
Qed.

(** X5: a click changes neither mode, time, templates, [curPreset] nor
    the active preset, and it moves no particle: position, previous
    position, size, phase, life and seed of every particle stay. *)
Theorem mousePressed_frame (mx my : R) (s : State) (g : RNG) :
  let s' := fst (mousePressed mx my s g) in
  cur_mode s' = cur_mode s /\
  cur_t s' = cur_t s /\
  presets s' = presets s /\
  curPreset s' = curPreset s /\
  cur_preset s' = cur_preset s /\
  Forall2 (fun p p' => same_clock p p' /\ pos p' = pos p /\ size p' = size p)
          (particles s) (particles s').
Proof.
  intros s'. subst s'.
  destruct (mousePressed_fields mx my s g) as [_ Hps]. rewrite Hps.
  assert (HF := mapM_pure (burst mx my)
                  (fun p p' => same_clock p p' /\ pos p' = pos p /\
                               size p' = size p)
                  (burst_keeps mx my) (particles s) g).
  unfold mousePressed, bind, ret.
  destruct (mapM (burst mx my) (particles s) g) as [ps g'].
  cbn [fst cur_mode cur_t presets curPreset cur_preset] in *.
  repeat split; try reflexivity. exact HF.
Qed.

(** X6: [applyPreset] with an index below 0 or past the end of [presets]
    raises nothing: it stores the index in [curPreset] and keeps the
    templates and the number of particles, but the active preset becomes an
    object without fields and every particle's size is computed from a
    missing [particleSize] (NaN). *)
Theorem applyPreset_out_of_range (i : Z) (s : State) (g : RNG) :
  (i < 0 \/ Z.of_nat (List.length (presets s)) <= i)%Z ->
  let s' := fst (applyPreset (Some i) s g) in
  cur_preset s' = None /\
  curPreset s' = Some i /\
  presets s' = presets s /\
  List.length (particles s') = List.length (particles s) /\
  Forall (fun p => size p = None) (particles s').
Proof.
  intros Hi s'. subst s'.
  assert (Hat : presets_at (presets s) (Some i) = None).
  { unfold presets_at. destruct (Z.ltb_spec i 0) as [_|Hge]; [reflexivity|].
    apply nth_error_None. lia. }
  destruct (applyPreset_fields (Some i) s g) as (Hp & Hc & Hcur & Hps & _).
  rewrite Hc, Hps, Hat.
  assert (HF : Forall2 (fun _ p' => size p' = None) (particles s)
                 (fst (mapM (resize None) (particles s) g))).
  { apply mapM_pure. intros a g'. unfold resize, bind, ret.
    destruct (random2 0.7 1.5 g'); reflexivity. }
  split; [reflexivity|]. split; [exact Hcur|]. split; [exact Hp|].
  split; [symmetry; exact (Forall2_length HF)|].
  exact (Forall2_right _ _ _ HF).
Qed.

Lemma applyPreset_out_of_range_witness :
  Forall (fun p => size p = None)
         (particles (fst (applyPreset (Some 4%Z) duo half))).
Proof.
  assert (Hi : (4 < 0 \/ Z.of_nat (List.length (presets duo)) <= 4)%Z)
    by (right; simpl; lia).
  exact (proj2 (proj2 (proj2 (proj2
           (applyPreset_out_of_range 4 duo half Hi))))).
Defined.

(** ** Random draws consumed by a click *)

Lemma burst_draws (mx my : R) (p : Particle) (g : RNG) (n : nat) :
  snd (burst mx my p g) n =
  g ((if near mx my p then 1 else 0) + n)%nat.
Proof.
  unfold burst, near. destruct (Rlt_dec _ 140).
  - unfold bind, random2, rand, ret.
    destruct (Rlt_dec 2.2 0.6); reflexivity.
  - reflexivity.
Qed.

Lemma mapM_burst_draws (mx my : R) (ps : list Particle) (g : RNG) (n : nat) :
  snd (mapM (burst mx my) ps g) n =
  g (List.length (filter (near mx my) ps) + n)%nat.
Proof.
  revert g n. induction ps as [|p ps IH]; intros g n; [reflexivity|].
  cbn [mapM]. unfold bind, ret.
  pose proof (burst_draws mx my p g) as Hb.
  destruct (burst mx my p g) as [p1 g1]; cbn [snd] in Hb.
  specialize (IH g1 n).
  destruct (mapM (burst mx my) ps g1) as [ps1 g2]; cbn [snd] in *.
  rewrite IH, Hb. cbn [filter].
  destruct (near mx my p); cbn [List.length]; f_equal; lia.
Qed.

(** X7: a click consumes exactly one random number for each particle
    closer than 140 to the pointer and none for the others: afterwards the
    stream is the old one shifted by the number of such particles. *)
Theorem click_draws (mx my : R) (s : State) (g : RNG) (n : nat) :
  snd (mousePressed mx my s g) n =
  g (List.length (filter (near mx my) (particles s)) + n)%nat.
Proof.
  pose proof (mapM_burst_draws mx my (particles s) g n) as H.
  unfold mousePressed, bind, ret.
  destruct (mapM (burst mx my) (particles s) g) as [ps g']. exact H.
Qed.

Lemma mag_zero_vector : Vector.mag (createVector 0 0) = 0.
Proof. now apply mag_zero_iff. Qed.

Lemma pushVec_short (mx my : R) (p : Particle) (m : R) :
  0 < m -> Vector.mag (pushVec mx my p m) <= m.
Proof.
  intros Hm.
  destruct (Req_dec (P5.dist mx my (x (pos p)) (y (pos p))) 0) as [Hz|Hnz].
  - rewrite click_dist in Hz. apply mag_zero_iff in Hz.
    unfold pushVec. rewrite Hz, setMag_zero, mag_zero_vector. lra.
  - assert (Hd : 0 < P5.dist mx my (x (pos p)) (y (pos p))).
    { rewrite click_dist in *. pose proof (mag_nonneg
        (Vector.sub (pos p) (createVector mx my))). lra. }
    destruct (pushVec_away mx my p m Hd Hm) as (_ & _ & ->). lra.
Qed.

(** X8: a click changes the velocity of every particle by a vector
    shorter than 2.2 (zero for the particles out of reach or exactly under
    the pointer). *)
Theorem click_impulse_bounded (mx my : R) (s : State) (g : RNG) :
  uniform g ->
  Forall2 (fun p p' => Vector.mag (Vector.sub (vel p') (vel p)) < 2.2)
          (particles s) (particles (fst (mousePressed mx my s g))).
Proof.
  intros Hg. destruct (mousePressed_fields mx my s g) as [_ ->].
  destruct (mapM_Forall2 uniform (burst mx my) (burst_rel mx my)
              (burst_spec mx my) (particles s) g Hg) as [HF _].
  eapply Forall2_impl; [|exact HF].
  intros p p' (_ & Hin & Hout).
  destruct (Rlt_dec (P5.dist mx my (x (pos p)) (y (pos p))) 140) as [Hd|Hd].
  - destruct (Hin Hd) as (m & Hm & ->). rewrite sub_add_cancel.
    eapply Rle_lt_trans; [apply pushVec_short; lra | lra].
  - rewrite (Hout (Rnot_lt_le _ _ Hd)).
    replace (Vector.sub (vel p) (vel p)) with (createVector 0 0)
      by (unfold Vector.sub; apply (f_equal2 createVector); ring).
    rewrite mag_zero_vector. lra.
Qed.

Lemma click_impulse_bounded_witness :
  Forall2 (fun p p' => Vector.mag (Vector.sub (vel p') (vel p)) < 2.2)
          (particles duo) (particles (fst (mousePressed 300 400 duo half))).
Proof. exact (click_impulse_bounded 300 400 duo half uniform_half). Defined.

(** ** More on Particle.update *)

Lemma update_rest (e : Env) (p : Particle) (g : RNG) :
  prev (fst (update e p g)) = pos p /\
  size (fst (update e p g)) = size p /\
  phase (fst (update e p g)) = phase p + 0.01 * speed (preset e) /\
  life (fst (update e p g)) = life p - 0.01 /\
  seed (fst (update e p g)) = seed p.
Proof.
  unfold update, bind, ret. destruct (update_vel e p g) as [v g'].
  cbn [fst prev size phase life seed]. unfold Vector.copy.
  destruct (pos p); repeat split.
Qed.

(** X9: over [n] calls of [update] under presets of speed [v], a
    particle's [life] falls by [0.01 * n], its [phase] grows by
    [0.01 * v * n], and its [seed] and [size] do not change. *)
Theorem updates_clock (es : list Env) (p : Particle) (g : RNG) (v : R) :
  Forall (fun e => speed (preset e) = v) es ->
  let p' := fst (updates es p g) in
  life p' = life p - 0.01 * INR (List.length es) /\
  phase p' = phase p + 0.01 * v * INR (List.length es) /\
  seed p' = seed p /\
  size p' = size p.
Proof.
  intros Hall. revert p g.
  induction Hall as [|e es He _ IH]; intros p g p'; subst p'.
  - cbn [updates List.length INR]. unfold ret; cbn [fst].
    repeat split; lra.
  - cbn [updates]. unfold bind.
    destruct (update_rest e p g) as (_ & Hsz & Hph & Hlf & Hsd).
    destruct (update e p g) as [p1 g1]; cbn [fst] in *.
    destruct (IH p1 g1) as (Hl & Hp & Hs & Hz).
    rewrite Hl, Hp, Hs, Hz, Hsz, Hph, Hlf, Hsd, He.
    change (List.length (e :: es)) with (S (List.length es)).
    rewrite S_INR. repeat split; lra.
Qed.

Lemma updates_clock_witness :
  life (fst (updates [hover; ballistic; hover] (still 0 0) half)) =
    100 - 0.01 * 3 /\
  phase (fst (updates [hover; ballistic; hover] (still 0 0) half)) =
    0 + 0.01 * 0.8 * 3.
Proof.
  assert (H : Forall (fun e => speed (preset e) = 0.8)
                [hover; ballistic; hover]) by (repeat constructor).
  destruct (updates_clock [hover; ballistic; hover] (still 0 0) half 0.8 H)
    as (Hl & Hp & _).
  split.
  - rewrite Hl. simpl. lra.
  - rewrite Hp. simpl. lra.
Defined.

(** ** The drag branch *)

Lemma drag_vel (e : Env) (p : Particle) (g : RNG) :
  mouseIsPressed e = true ->
  vel (fst (update e p g)) =
    Vector.add (vel p)
      (Vector.setMag (Vector.sub (mouse e) (pos p)) (influence e p * 0.8)).
Proof.
  intros Hp. destruct (update_fields e p g) as (-> & _ & _).
  unfold update_vel. rewrite Hp. reflexivity.
Qed.

Lemma drag_at_pointer (e : Env) (p : Particle) (g : RNG) :
  mouseIsPressed e = true -> pos p = mouse e ->
  vel (fst (update e p g)) = vel p.
Proof.
  intros Hp Hpos. rewrite drag_vel by assumption.
  replace (Vector.sub (mouse e) (pos p)) with (createVector 0 0).
  - rewrite setMag_zero. apply add_zero.
  - rewrite Hpos. unfold Vector.sub.
    apply (f_equal2 createVector); ring.
Qed.

(** X10: with the pointer pressed on a canvas of positive width, a
    particle exactly under the pointer keeps its velocity; at distance
    [d > 0] the velocity gains [k] times the vector to the pointer with
    [k = influence * 0.8 / d], a vector of length [0.8 * |influence|]; for
    [d < 0.7 * width] the factor is positive (a pull shorter than 0.8), for
    [d > 0.7 * width] it is negative (a push away). *)
Theorem drag_pulls (e : Env) (p : Particle) (g : RNG) :
  mouseIsPressed e = true ->
  0 < width e ->
  let d := update_d e p in
  let dv := Vector.sub (vel (fst (update e p g))) (vel p) in
  let k := influence e p * 0.8 / d in
  (pos p = mouse e -> vel (fst (update e p g)) = vel p) /\
  (0 < d ->
   dv = Vector.mult (Vector.sub (mouse e) (pos p)) k /\
   Vector.mag dv = 0.8 * Rabs (influence e p)) /\
  (0 < d < 0.7 * width e -> 0 < k /\ Vector.mag dv < 0.8) /\
  (0.7 * width e < d -> k < 0).
Proof.
  intros Hp Hw d dv k.
  split; [intros Hpos; now apply drag_at_pointer|].
  assert (Hdv : 0 < d ->
            dv = Vector.mult (Vector.sub (mouse e) (pos p)) k /\
            Vector.mag dv = 0.8 * Rabs (influence e p)).
  { intros Hd. subst dv. rewrite drag_vel by assumption.
    rewrite sub_add_cancel.
    assert (Hm : Vector.mag (Vector.sub (mouse e) (pos p)) <> 0)
      by (change (d <> 0); lra).
    split.
    - now apply setMag_scale.
    - rewrite mag_setMag by assumption.
      rewrite Rabs_mult, (Rabs_right 0.8) by lra. lra. }
  split; [exact Hdv|].
  pose proof (influence_linear e p Hw) as Hi. fold d in Hi.
  assert (Hq : forall c, d / (0.7 * width e) < c <-> d < c * (0.7 * width e)).
  { intros c. split; intros H.
    - apply (Rmult_lt_compat_r (0.7 * width e)) in H; [|lra].
      unfold Rdiv in H. rewrite Rmult_assoc, Rinv_l in H; lra.
    - apply (Rmult_lt_reg_r (0.7 * width e)); [lra|].
      unfold Rdiv. rewrite Rmult_assoc, Rinv_l; lra. }
  split.
  - intros [Hd0 Hd1].
    assert (Hlt : d / (0.7 * width e) < 1) by (apply Hq; lra).
    assert (Hge : 0 < d / (0.7 * width e)).
    { apply Rdiv_lt_0_compat; lra. }
    split.
    + subst k. apply Rdiv_lt_0_compat; lra.
    + destruct (Hdv Hd0) as [_ ->]. rewrite Rabs_right; lra.
  - intros Hd.
    assert (Hgt : 1 < d / (0.7 * width e)).
    { apply (Rmult_lt_reg_r (0.7 * width e)); [lra|].
      unfold Rdiv. rewrite Rmult_assoc, Rinv_l; lra. }
    subst k. unfold Rdiv.
    assert (0 < / d) by (apply Rinv_0_lt_compat; lra).
    assert (influence e p * 0.8 < 0) by lra. nra.
Qed.

Lemma drag_pulls_witness :
  influence drag_far (still 0 0) * 0.8 / update_d drag_far (still 0 0) < 0.
Proof.
  assert (Hw : 0 < width drag_far) by (simpl; lra).
  destruct (drag_pulls drag_far (still 0 0) half eq_refl Hw)
    as (_ & _ & _ & H).
  apply H.
  replace (update_d drag_far (still 0 0)) with 1400; [simpl; lra|].
  symmetry. unfold update_d, Vector.dist, Vector.mag.
  apply sqrt_of_square; [lra|].
  unfold Vector.magSq, Vector.sub; simpl. lra.
Defined.

(** ** Damping of the velocity blend *)

Lemma lerp_convex (v target : Vector) (amt : R) :
  0 <= amt <= 1 ->
  Vector.mag (Vector.lerp v target amt) <=
  (1 - amt) * Vector.mag v + amt * Vector.mag target.
Proof.
  intros Ha.
  replace (Vector.lerp v target amt)
    with (Vector.add (Vector.mult v (1 - amt)) (Vector.mult target amt))
    by (unfold Vector.lerp, Vector.add, Vector.mult; cbn [x y];
        apply (f_equal2 createVector); ring).
  eapply Rle_trans; [apply mag_add|].
  rewrite !mag_mult, !Rabs_right by lra. lra.
Qed.

Lemma blend_step (e : Env) (p : Particle) (g : RNG) :
  mouseIsPressed e = false -> 0 <= speed (preset e) ->
  Vector.mag (vel (fst (update e p g))) <=
  match mode e with
  | wave => 0.95 * Vector.mag (vel p) + 0.05 * (speed (preset e) * 0.6 + 0.4)
  | particle => 0.94 * Vector.mag (vel p) + 0.06 * vmax (preset e)
  end.
Proof.
  intros Hp Hs. destruct (update_fields e p g) as (-> & _ & _).
  unfold update_vel. rewrite Hp. destruct (mode e).
  - unfold ret; cbn [fst].
    eapply Rle_trans; [apply lerp_convex; lra|].
    assert (Vector.mag (wave_target e p) <= speed (preset e) * 0.6 + 0.4).
    { unfold wave_target. apply mag_two_units;
        [apply mag_nvec | apply mag_fromAngle | lra | lra]. }
    lra.
  - unfold bind, random2D, rand, ret; cbn [fst].
    eapply Rle_trans; [apply lerp_convex; lra|].
    assert (Vector.mag (particle_target e p
                          (Vector.fromAngle (g 0%nat * TWO_PI)))
            <= vmax (preset e)).
    { unfold particle_target, vmax. apply mag_two_units;
        [apply mag_nvec | apply mag_fromAngle | lra | lra]. }
    lra.
Qed.

(** X11: with the pointer not pressed and a preset of non-negative
    speed, one [update] brings the speed to at most
    [0.95 |vel| + 0.05 (0.6 speed + 0.4)] in wave mode and
    [0.94 |vel| + 0.06 (1.4 speed + 0.5)] in particle mode; so a velocity
    no longer than [1.4 speed + 0.5] stays so through any number of such
    updates, in any mix of the two modes. *)
Theorem velocity_damped (pr : Preset) :
  0 <= speed pr ->
  (forall e p g, mouseIsPressed e = false -> preset e = pr ->
     Vector.mag (vel (fst (update e p g))) <=
     match mode e with
     | wave => 0.95 * Vector.mag (vel p) + 0.05 * (speed pr * 0.6 + 0.4)
     | particle => 0.94 * Vector.mag (vel p) + 0.06 * vmax pr
     end) /\
  (forall es p g,
     Forall (fun e => mouseIsPressed e = false /\ preset e = pr) es ->
     Vector.mag (vel p) <= vmax pr ->
     Vector.mag (vel (fst (updates es p g))) <= vmax pr).
Proof.
  intros Hs.
  assert (Hone : forall e p g, mouseIsPressed e = false -> preset e = pr ->
            Vector.mag (vel (fst (update e p g))) <=
            match mode e with
            | wave =>
                0.95 * Vector.mag (vel p) + 0.05 * (speed pr * 0.6 + 0.4)
            | particle => 0.94 * Vector.mag (vel p) + 0.06 * vmax pr
            end).
  { intros e p g Hp <-. now apply blend_step. }
  split; [exact Hone|].
  intros es. induction es as [|e es IH]; intros p g Hall Hv.
  - exact Hv.
  - inversion Hall as [|e' es' [Hp He] Hall']; subst e' es'.
    cbn [updates]. unfold bind.
    pose proof (Hone e p g Hp He) as Hb.
    destruct (update e p g) as [p1 g1]; cbn [fst] in Hb.
    apply IH; [exact Hall'|].
    unfold vmax in *. revert Hb. destruct (mode e); intros Hb; lra.
Qed.

Lemma velocity_damped_witness :
  Vector.mag (vel (fst (updates [hover; ballistic; hover] (still 0 0) half)))
    <= vmax preset0.
Proof.
  assert (Hs : 0 <= speed preset0) by (simpl; lra).
  destruct (velocity_damped preset0 Hs) as [_ H].
  apply H.
  - repeat constructor.
  - replace (Vector.mag (vel (still 0 0))) with 0.
    + unfold vmax; simpl; lra.
    + symmetry. apply mag_zero_iff. reflexivity.
Defined.

(** X12: on a canvas of non-negative size, [update] stores the old
    position in [prev] and moves the particle by its new velocity; per
    axis, a coordinate that stays within the 50 margin is kept, one that
    falls below -50 becomes [size + 50] and one that exceeds [size + 50]
    becomes -50. *)
Theorem update_integrates (e : Env) (p : Particle) (g : RNG) :
  0 <= width e -> 0 <= height e ->
  let p' := fst (update e p g) in
  let q := Vector.add (pos p) (vel p') in
  prev p' = pos p /\
  (-50 <= x q <= width e + 50 -> x (pos p') = x q) /\
  (x q < -50 -> x (pos p') = width e + 50) /\
  (width e + 50 < x q -> x (pos p') = -50) /\
  (-50 <= y q <= height e + 50 -> y (pos p') = y q) /\
  (y q < -50 -> y (pos p') = height e + 50) /\
  (height e + 50 < y q -> y (pos p') = -50).
Proof.
  intros Hw Hh p' q. subst p' q.
  destruct (update_rest e p g) as (Hprev & _).
  destruct (update_fields e p g) as (Hv & Hpos & _).
  rewrite Hpos, Hv. split; [exact Hprev|].
  set (q := Vector.add (pos p) (fst (update_vel e p g))).
  unfold wrap; cbn [x y].
  repeat split; intros H;
    repeat match goal with
           | |- context [Rlt_dec ?a ?b] => destruct (Rlt_dec a b)
           | H' : context [Rlt_dec ?a ?b] |- _ => destruct (Rlt_dec a b)
           end; lra.
Qed.

Lemma update_integrates_witness :
  x (pos (fst (update drag_out (still (-2000) 9000) half))) = 1050 /\
  y (pos (fst (update drag_out (still (-2000) 9000) half))) = -50.
Proof.
  assert (Hw : 0 <= width drag_out) by (simpl; lra).
  assert (Hh : 0 <= height drag_out) by (simpl; lra).
  destruct (update_integrates drag_out (still (-2000) 9000) half Hw Hh)
    as (_ & _ & Hx & _ & _ & _ & Hy).
  rewrite (drag_at_pointer drag_out (still (-2000) 9000) half eq_refl eq_refl)
    in Hx, Hy.
  split.
  - rewrite Hx; simpl; lra.
  - rewrite Hy; simpl; lra.
Defined.

(** ** The constructor and setup *)

Lemma floor_cell (u : R) (k : Z) :
  0 <= u < IZR k -> 0 <= floor u <= IZR k - 1 /\ floor u <= u.
Proof.
  intros [H0 Hk]. unfold floor.
  pose proof (Zfloor_bound u) as [Hlo Hhi].
  assert (Hz0 : (0 <= Zfloor u)%Z) by (apply Zfloor_lub; exact H0).
  assert (Hzk : (Zfloor u < k)%Z) by (apply lt_IZR; lra).
  split; [|exact Hlo]. split.
  - now apply IZR_le in Hz0.
  - assert (Hle : (Zfloor u <= k - 1)%Z) by lia.
    apply IZR_le in Hle. rewrite minus_IZR in Hle. exact Hle.
Qed.

Lemma TWO_PI_pos : 0 < TWO_PI.
Proof. unfold TWO_PI. pose proof PI_RGT_0. lra. Qed.

Lemma newParticle_spec (w h : R) (pr : Preset) (g : RNG) :
  uniform g -> 0 <= w -> 0 <= h ->
  fresh_particle w h pr (fst (newParticle w h (Some pr) g)) /\
  uniform (snd (newParticle w h (Some pr) g)).
Proof.
  intros Hg Hw Hh.
  unfold newParticle, random1, random2, random2D, rand, bind, ret.
  destruct (Rlt_dec 1.6 0.7) as [Hc|_]; [lra|].
  destruct (Rlt_dec 10000 100) as [Hc|_]; [lra|].
  cbn [fst snd]. split; [|intros n; apply Hg].
  pose proof (Hg 0%nat) as H0. pose proof (Hg 1%nat) as H1.
  pose proof (Hg 2%nat) as H2. pose proof (Hg 3%nat) as H3.
  pose proof (Hg 5%nat) as H5. pose proof (Hg 6%nat) as H6.
  pose proof (Hg 7%nat) as H7. pose proof (Hg 8%nat) as H8.
  pose proof TWO_PI_pos as Hpi.
  assert (Hx : 0 <= floor (g 0%nat * gridCols) + g 2%nat <= 60).
  { destruct (floor_cell (g 0%nat * gridCols) 60) as [[? ?] _];
      [unfold gridCols; lra | lra]. }
  assert (Hy : 0 <= floor (g 1%nat * gridRows) + g 3%nat <= 40).
  { destruct (floor_cell (g 1%nat * gridRows) 40) as [[? ?] _];
      [unfold gridRows; lra | lra]. }
  unfold fresh_particle, jittered.
  cbn [pos prev vel size phase life seed x y option_map].
  set (a := floor (g 0%nat * gridCols) + g 2%nat) in *.
  set (b := floor (g 1%nat * gridRows) + g 3%nat) in *.
  assert (Hmx : P5.map a 0 gridCols 0 w = a / 60 * w)
    by (unfold P5.map, gridCols; field).
  assert (Hmy : P5.map b 0 gridRows 0 h = b / 40 * h)
    by (unfold P5.map, gridRows; field).
  rewrite Hmx, Hmy.
  split; [nra|]. split; [nra|]. split; [reflexivity|].
  split; [rewrite mag_mult, mag_fromAngle, Rabs_right; lra|].
  split; [eexists; split; [|reflexivity]; lra|].
  split; [nra|]. split; lra.
Qed.

Lemma pushN_fresh (n : nat) (w h : R) (pr : Preset) (g : RNG) :
  uniform g -> 0 <= w -> 0 <= h ->
  Forall (fresh_particle w h pr) (fst (pushN n w h (Some pr) g)) /\
  uniform (snd (pushN n w h (Some pr) g)).
Proof.
  intros Hg Hw Hh. revert g Hg.
  induction n as [|n IH]; intros g Hg; cbn [pushN].
  - unfold ret. split; [constructor | exact Hg].
  - unfold bind, ret.
    destruct (newParticle_spec w h pr g Hg Hw Hh) as [Hp Hu].
    destruct (newParticle w h (Some pr) g) as [p g1]; cbn [fst snd] in *.
    destruct (IH g1 Hu) as [HF Hu'].
    destruct (pushN n w h (Some pr) g1) as [ps g2]; cbn [fst snd] in *.
    split; [constructor; assumption | exact Hu'].
Qed.

(** X13: on a canvas of non-negative size the constructor places the
    particle on the canvas, with [prev] equal to [pos], a velocity of
    length 0.2, a size of [particleSize] times a factor in [0.7, 1.6),
    a phase in [0, 2 pi), a life in [100, 10000) and a seed in [0, 1000);
    it consumes nine random numbers. *)
Theorem newParticle_on_canvas (w h : R) (pr : Preset) (g : RNG) :
  uniform g -> 0 <= w -> 0 <= h ->
  fresh_particle w h pr (fst (newParticle w h (Some pr) g)) /\
  (forall n, snd (newParticle w h (Some pr) g) n = g (9 + n)%nat).
Proof.
  intros Hg Hw Hh. split; [now apply newParticle_spec|].
  intros n. unfold newParticle, random1, random2, random2D, rand, bind, ret.
  destruct (Rlt_dec 1.6 0.7); destruct (Rlt_dec 10000 100); reflexivity.
Qed.

Lemma newParticle_on_canvas_witness :
  fresh_particle 1000 800 preset0
    (fst (newParticle 1000 800 (Some preset0) half)).
Proof.
  assert (Hw : 0 <= 1000) by lra. assert (Hh : 0 <= 800) by lra.
  exact (proj1 (newParticle_on_canvas 1000 800 preset0 half
                  uniform_half Hw Hh)).
Defined.

(** X14: [setup] on a canvas of non-negative size leaves [N] = 900
    particles, each as the constructor makes them under the first
    template, the four templates in [presets], the first one active with
    [curPreset] 0, wave mode, shape index 0 and time 0. *)
Theorem setup_populates (w h : R) (g : RNG) :
  uniform g -> 0 <= w -> 0 <= h ->
  let s := fst (setup w h g) in
  List.length (particles s) = N /\
  Forall (fresh_particle w h preset0) (particles s) /\
  cur_preset s = Some preset0 /\
  curPreset s = Some 0%Z /\
  presets s = setup_presets /\
  cur_mode s = wave /\ shapeIndex s = 0%nat /\ cur_t s = 0.
Proof.
  intros Hg Hw Hh s. subst s.
  unfold setup, applyPreset, bind, ret. cbn [mapM particles initial ret].
  unfold ret. cbn [fst snd cur_preset particles presets app].
  change (presets_at setup_presets (Some 0%Z)) with (Some preset0).
  pose proof (pushN_length N w h (Some preset0) g) as Hlen.
  destruct (pushN_fresh N w h preset0 g Hg Hw Hh) as [HF _].
  destruct (pushN N w h (Some preset0) g) as [ps g'].
  cbn [fst particles presets cur_preset curPreset cur_mode shapeIndex cur_t
       initial] in *.
  repeat split; assumption || reflexivity.
Qed.

Lemma setup_populates_witness :
  List.length (particles (fst (setup 1000 800 half))) = 900%nat.
Proof.
  assert (Hw : 0 <= 1000) by lra. assert (Hh : 0 <= 800) by lra.
  exact (proj1 (setup_populates 1000 800 half uniform_half Hw Hh)).
Defined.

(** ** draw *)

Lemma draw_some (f : Frame) (s : State) (g : RNG) (pr : Preset) :
  cur_preset s = Some pr ->
  exists ps,
    ps = fst (mapM (update (env_of f s pr)) (particles s) g) /\
    fst (draw f s g) =
      Some (mkState ps (cur_mode s) (shapeIndex s)
              (cur_t s + 0.005 * speed pr) (presets s) (curPreset s)
              (cur_preset s)).
Proof.
  intros Hc. unfold draw. rewrite Hc. unfold bind, ret.
  destruct (mapM _ (particles s) g) as [ps g']. exists ps.
  split; reflexivity.
Qed.

(** X15: with an active preset and a canvas of non-negative size, one
    frame advances [t] by [0.005 * speed], keeps the number of particles,
    leaves every particle within the 50 margin of the canvas with [prev]
    at its old position, size and seed unchanged and life 0.01 lower, and
    changes none of mode, shape index, templates and active preset. *)
Theorem draw_frame (f : Frame) (s : State) (g : RNG) (pr : Preset) :
  cur_preset s = Some pr ->
  0 <= f_width f -> 0 <= f_height f ->
  exists s',
    fst (draw f s g) = Some s' /\
    cur_t s' = cur_t s + 0.005 * speed pr /\
    List.length (particles s') = List.length (particles s) /\
    Forall (in_bounds (f_width f) (f_height f)) (particles s') /\
    Forall2 (fun p p' => prev p' = pos p /\ size p' = size p /\
                         seed p' = seed p /\ life p' = life p - 0.01)
            (particles s) (particles s') /\
    cur_mode s' = cur_mode s /\ shapeIndex s' = shapeIndex s /\
    presets s' = presets s /\ curPreset s' = curPreset s /\
    cur_preset s' = cur_preset s.
Proof.
  intros Hc Hw Hh.
  destruct (draw_some f s g pr Hc) as (ps & Hps & Hd).
  eexists. split; [exact Hd|].
  cbn [cur_t particles cur_mode shapeIndex presets curPreset cur_preset].
  assert (HF : Forall2 (fun p p' =>
                 in_bounds (f_width f) (f_height f) p' /\
                 prev p' = pos p /\ size p' = size p /\
                 seed p' = seed p /\ life p' = life p - 0.01)
               (particles s) ps).
  { rewrite Hps. apply mapM_pure. intros p g'.
    destruct (update_rest (env_of f s pr) p g') as (H1 & H2 & _ & H4 & H5).
    split; [|repeat split; assumption].
    now apply (update_in_bounds (env_of f s pr) p g'). }
  split; [reflexivity|].
  split; [symmetry; exact (Forall2_length HF)|].
  split.
  { apply (Forall2_right _ (particles s)).
    eapply Forall2_impl; [|exact HF]. intros p p' H. apply H. }
  split.
  { eapply Forall2_impl; [|exact HF]. intros p p' H. apply H. }
  repeat split.
Qed.

Lemma draw_frame_witness :
  exists s', fst (draw calm duo half) = Some s' /\
             cur_t s' = 0 + 0.005 * 0.8.
Proof.
  assert (Hw : 0 <= f_width calm) by (simpl; lra).
  assert (Hh : 0 <= f_height calm) by (simpl; lra).
  destruct (draw_frame calm duo half preset0 eq_refl Hw Hh)
    as (s' & Hd & Ht & _).
  exists s'. split; [exact Hd | exact Ht].
Defined.

(** X16: with an active preset, [n] frames in a row advance [t] by
    [n * 0.005 * speed] and keep the number of particles, the active
    preset, the mode, the shape index and the templates. *)
Theorem frames_advance_time (fs : list Frame) (s : State) (g : RNG)
        (pr : Preset) :
  cur_preset s = Some pr ->
  exists s',
    fst (frames fs s g) = Some s' /\
    cur_t s' = cur_t s + INR (List.length fs) * (0.005 * speed pr) /\
    List.length (particles s') = List.length (particles s) /\
    cur_preset s' = Some pr /\
    cur_mode s' = cur_mode s /\ shapeIndex s' = shapeIndex s /\
    presets s' = presets s.
Proof.
  revert s g. induction fs as [|f fs IH]; intros s g Hc.
  - exists s. cbn [frames List.length INR]. unfold ret; cbn [fst].
    repeat split; try assumption. lra.
  - cbn [frames]. unfold bind.
    destruct (draw_some f s g pr Hc) as (ps & Hps & Hd).
    assert (Hlen : List.length ps = List.length (particles s)).
    { rewrite Hps. symmetry.
      exact (Forall2_length
               (mapM_pure (update (env_of f s pr)) (fun _ _ => True)
                  (fun _ _ => I) (particles s) g)). }
    destruct (draw f s g) as [r g1]; cbn [fst] in Hd. subst r.
    match goal with |- context [frames fs ?s1 g1] =>
      destruct (IH s1 g1 Hc) as (s' & Hf & Ht & Hl & Hcp & Hm & Hs & Hp)
    end.
    exists s'. split; [exact Hf|].
    cbn [cur_t particles cur_mode shapeIndex presets] in *.
    change (List.length (f :: fs)) with (S (List.length fs)).
    rewrite S_INR.
    split; [rewrite Ht; lra|].
    split; [now rewrite Hl|].
    repeat split; assumption.
Qed.

Lemma frames_advance_time_witness :
  exists s', fst (frames [calm; calm; calm] duo half) = Some s' /\
             cur_t s' = 0 + 3 * (0.005 * 0.8).
Proof.
  destruct (frames_advance_time [calm; calm; calm] duo half preset0 eq_refl)
    as (s' & Hf & Ht & _).
  exists s'. split; [exact Hf|]. rewrite Ht. simpl. lra.
Defined.

(** ** Colours *)

Lemma js_rem_small (a b : R) : 0 <= a < b -> js_rem a b = a.
Proof.
  intros [H0 Hb]. unfold js_rem, trunc.
  assert (Hq : 0 <= a / b < 1).
  { split.
    - apply Rmult_le_pos; [exact H0|]. left. apply Rinv_0_lt_compat. lra.
    - apply (Rmult_lt_reg_r b); [lra|].
      unfold Rdiv. rewrite Rmult_assoc, Rinv_l; lra. }
  destruct (Rlt_dec (a / b) 0) as [Hn|_]; [lra|].
  rewrite (Zfloor_eq 0 (a / b)) by (simpl; lra). simpl. lra.
Qed.

Lemma template_hue (pr : Preset) :
  In pr setup_presets -> 30 <= hue pr <= 280 /\ 70 <= bright pr.
Proof.
  intros [<- | [<- | [<- | [<- | []]]]]; simpl; lra.
Qed.

(** X17: for each of the four templates none of the [% 360] in the
    sketch ever wraps: with noise values in [0, 1] the local hue of
    [display] is [hue + 40 * noise], between [hue] and [hue + 40] and below
    360; the hue of the [i]-th backdrop rectangle ([i < 6]) is
    [hue + 6 i] and its brightness is positive; the accent hue is
    [hue + 10] and the grid colour's hue is [hue + 60]. *)
Theorem hues_never_wrap (pr : Preset) :
  In pr setup_presets ->
  (forall e p, preset e = pr -> unit_noise (noise e) ->
     localHue e p =
       hue pr + noise e (x (pos p) * 0.002) (y (pos p) * 0.002) (t e) * 40 /\
     hue pr <= localHue e p <= hue pr + 40 /\
     localHue e p < 360) /\
  (forall i, (i < 6)%nat ->
     backdrop_hue pr i = hue pr + INR i * 6 /\ 0 < backdrop_bright pr i) /\
  accent_hue pr = hue pr + 10 /\
  grid_c_hue pr = hue pr + 60.
Proof.
  intros Hin. destruct (template_hue pr Hin) as [Hh Hb].
  split; [|split; [|split]].
  - intros e p <- Hn. unfold localHue.
    set (n := noise e _ _ _). pose proof (Hn (x (pos p) * 0.002)
      (y (pos p) * 0.002) (t e)) as Hr. fold n in Hr.
    rewrite js_rem_small by lra. repeat split; lra.
  - intros i Hi. unfold backdrop_hue, backdrop_bright.
    assert (Hi5 : 0 <= INR i <= 5).
    { split; [apply pos_INR|].
      replace 5 with (INR 5) by (simpl; lra). apply le_INR. lia. }
    rewrite js_rem_small by lra. split; [reflexivity | nra].
  - unfold accent_hue. apply js_rem_small. lra.
  - unfold grid_c_hue. apply js_rem_small. lra.
Qed.

Lemma hues_never_wrap_witness :
  accent_hue preset0 = 52 /\ grid_c_hue preset0 = 102.
Proof.
  destruct (hues_never_wrap preset0 (or_introl eq_refl)) as (_ & _ & Ha & Hg).
  split; [rewrite Ha | rewrite Hg]; simpl; lra.
Defined.

(** ** The system grid *)

(** X18: on a canvas at least 100 wide and high the lattice of
    [drawSystemGrid] spans [50, width - 50] x [50, height - 50] (corner
    nodes at 50 and at size - 50), the offset of a node lies in [-9, 9]
    when noise values lie in [0, 1], and every vertex of every arc, at any
    angle, lies at least 23 inside the canvas. *)
Theorem grid_inside (nz : R -> R -> R -> R) (w h tm : R) (gx gy : nat)
        (a : R) :
  unit_noise nz -> 100 <= w -> 100 <= h ->
  (gx <= 60)%nat -> (gy <= 40)%nat ->
  grid_x w 0 = 50 /\ grid_x w 60 = w - 50 /\
  grid_y h 0 = 50 /\ grid_y h 40 = h - 50 /\
  50 <= grid_x w gx <= w - 50 /\
  50 <= grid_y h gy <= h - 50 /\
  -9 <= grid_offset nz tm gx gy <= 9 /\
  23 <= x (grid_vertex nz w h tm gx gy a) <= w - 23 /\
  23 <= y (grid_vertex nz w h tm gx gy a) <= h - 23.
Proof.
  intros Hn Hw Hh Hgx Hgy.
  assert (Hx : forall k, grid_x w k = 50 + INR k / 60 * (w - 100))
    by (intros k; unfold grid_x, P5.map, gridCols; field).
  assert (Hy : forall k, grid_y h k = 50 + INR k / 40 * (h - 100))
    by (intros k; unfold grid_y, P5.map, gridRows; field).
  assert (Hix : 0 <= INR gx <= 60).
  { split; [apply pos_INR|].
    replace 60 with (INR 60) by (simpl; lra). now apply le_INR. }
  assert (Hiy : 0 <= INR gy <= 40).
  { split; [apply pos_INR|].
    replace 40 with (INR 40) by (simpl; lra). now apply le_INR. }
  assert (Hbx : 50 <= grid_x w gx <= w - 50) by (rewrite Hx; nra).
  assert (Hby : 50 <= grid_y h gy <= h - 50) by (rewrite Hy; nra).
  assert (Ho : -9 <= grid_offset nz tm gx gy <= 9).
  { unfold grid_offset.
    pose proof (Hn (INR gx * 0.06) (INR gy * 0.06) (tm * 0.2)). lra. }
  split; [rewrite Hx; simpl; lra|].
  split; [rewrite Hx; simpl; lra|].
  split; [rewrite Hy; simpl; lra|].
  split; [rewrite Hy; simpl; lra|].
  split; [exact Hbx|]. split; [exact Hby|]. split; [exact Ho|].
  unfold grid_vertex, grid_origin, Vector.add; cbn [x y].
  set (o := grid_offset nz tm gx gy) in *.
  pose proof (SIN_bound (a * 3 + INR gx * 0.2 + INR gy * 0.2 + tm)) as Hr.
  set (sr := sin (a * 3 + INR gx * 0.2 + INR gy * 0.2 + tm)) in *.
  pose proof (SIN_bound (tm * 0.2 + INR gx)) as Hs1.
  pose proof (COS_bound (tm * 0.2 + INR gy)) as Hc1.
  pose proof (COS_bound a) as Hca. pose proof (SIN_bound a) as Hsa.
  assert (Hcr : -12 <= cos a * (8 + sr * 4) <= 12) by nra.
  assert (Hsr : -12 <= sin a * (8 + sr * 4) <= 12) by nra.
  split; lra.
Qed.

Lemma grid_inside_witness :
  23 <= x (grid_vertex flat_noise 1000 800 0 60 40 0) <= 1000 - 23.
Proof.
  assert (Hn : unit_noise flat_noise) by (intros a b c; unfold flat_noise; lra).
  assert (Hw : 100 <= 1000) by lra. assert (Hh : 100 <= 800) by lra.
  destruct (grid_inside flat_noise 1000 800 0 60 40 0 Hn Hw Hh
              (le_n 60) (le_n 40)) as (_ & _ & _ & _ & _ & _ & _ & H & _).
  exact H.
Defined.

(** ** The alpha ramp in closed form *)

(** X19: on a canvas of positive width the alpha of [display] is 1 for
    [d <= 0], the line [1 - 0.88 d / (0.7 width)] up to the distance
    [0.7 width * 0.94 / 0.88] where it reaches 0.06, and 0.06 beyond. *)
Theorem alpha_piecewise (w d : R) :
  0 < w ->
  let knee := 0.7 * w * (0.94 / 0.88) in
  (d <= 0 -> alpha_of w d = 1) /\
  (0 <= d <= knee -> alpha_of w d = 1 - 0.88 * (d / (0.7 * w))) /\
  (knee <= d -> alpha_of w d = 0.06).
Proof.
  intros Hw knee. subst knee.
  unfold alpha_of, constrain. rewrite (alpha_line w Hw).
  assert (Hd : d = d / (0.7 * w) * (0.7 * w)).
  { unfold Rdiv. rewrite Rmult_assoc, Rinv_l; lra. }
  set (r := d / (0.7 * w)) in *.
  assert (Hk : 0 < 0.7 * w) by lra.
  assert (H1 : d <= 0 -> r <= 0) by (intros; nra).
  assert (H2 : 0 <= d -> 0 <= r) by (intros; nra).
  assert (H3 : d <= 0.7 * w * (0.94 / 0.88) -> r <= 0.94 / 0.88)
    by (intros; nra).
  assert (H4 : 0.7 * w * (0.94 / 0.88) <= d -> 0.94 / 0.88 <= r)
    by (intros; nra).
  clear Hd.
  repeat split; intros H.
  - specialize (H1 H). minmax_cases; lra.
  - destruct H as [Ha Hb]. specialize (H2 Ha). specialize (H3 Hb).
    minmax_cases; lra.
  - specialize (H4 H). minmax_cases; lra.
Qed.

Lemma alpha_piecewise_witness :
  alpha_of 1000 5000 = 0.06.
Proof.
  assert (Hw : 0 < 1000) by lra.
  destruct (alpha_piecewise 1000 5000 Hw) as (_ & _ & H).
  apply H. lra.
Defined.
